(** * Defender clone (arcade/experimental/defender.py): a shallow embedding

    The Python program computes with ints and floats.  Every constant of the
    program is a decimal fraction, so numbers are modelled as exact rationals
    [Q]; integer-valued attributes (alpha, the camera offsets between two
    ticks, the random rolls) are [Z].  Sprites live in an object store
    indexed by their identity, and the sprite lists hold identities, so that
    a sprite appended twice is one object seen through two entries.

    Where the program reaches a number by repeated addition (the distance
    of a bullet, the place of a shot), the theorems name that repeated sum
    and not a product, and bounds are stated with the slack the program
    leaves, so that a statement does not rest on the arithmetic being
    exact. *)

From Stdlib Require Import ZArith QArith Qabs Qminmax Lqa Lia List Bool String.
Import ListNotations.

Local Open Scope Q_scope.

(** ** Module-level constants *)

Definition SCREEN_WIDTH : Q := 1280.
Definition SCREEN_HEIGHT : Q := 720.
Definition PLAYING_FIELD_WIDTH : Q := 5000.
Definition PLAYING_FIELD_HEIGHT : Q := 800.
Definition MINIMAP_HEIGHT : Q := SCREEN_HEIGHT / 4.
Definition MAIN_SCREEN_HEIGHT : Q := SCREEN_HEIGHT - MINIMAP_HEIGHT.
Definition VIEWPORT_MARGIN : Q := SCREEN_WIDTH / 2 - 50.
Definition TOP_VIEWPORT_MARGIN : Q := 30.
Definition DEFAULT_BOTTOM_VIEWPORT : Q := -10.
Definition MAX_HORIZONTAL_MOVEMENT_SPEED : Q := 10.
Definition MAX_VERTICAL_MOVEMENT_SPEED : Q := 5.
Definition HORIZONTAL_ACCELERATION : Q := 5 # 10.
Definition VERTICAL_ACCELERATION : Q := 2 # 10.
Definition MOVEMENT_DRAG : Q := 8 # 100.
Definition BULLET_MAX_DISTANCE : Q := SCREEN_WIDTH * (75 # 100).

(** Python comparisons on numbers, as booleans. *)
Definition ltb (a b : Q) : bool := if Qlt_le_dec a b then true else false.
Definition gtb (a b : Q) : bool := ltb b a.
Definition leb (a b : Q) : bool := negb (ltb b a).
Definition eqb (a b : Q) : bool := Qeq_bool a b.

(** Python's [int(x)] on a number: truncation toward zero. *)
Definition int (x : Q) : Z := Z.quot (Qnum x) (Zpos (Qden x)).

(** ** Sprites

    [arcade.Sprite] is library code; what the program reads and writes of a
    sprite is its centre, its velocity, its size, its alpha and (class
    [Bullet] only) the accumulated distance.  The class of an object decides
    which [update] runs. *)

Inductive SpriteClass : Type :=
| SpriteSolidColor
| BulletClass (distance : Q)
| ParticleClass.

Record Sprite : Type := mkSprite {
  cls : SpriteClass;
  center_x : Q;
  center_y : Q;
  change_x : Q;
  change_y : Q;
  width : Q;
  height : Q;
  alpha : Z
}.

(** [arcade.SpriteSolidColor(width, height, color)]: a fresh sprite sits at
    the origin, does not move and is opaque. *)
Definition new_sprite (c : SpriteClass) (w h : Q) : Sprite :=
  {| cls := c; center_x := 0; center_y := 0; change_x := 0; change_y := 0;
     width := w; height := h; alpha := 255 |}.

Definition set_center_x (v : Q) (s : Sprite) : Sprite :=
  {| cls := cls s; center_x := v; center_y := center_y s;
     change_x := change_x s; change_y := change_y s;
     width := width s; height := height s; alpha := alpha s |}.
Definition set_center_y (v : Q) (s : Sprite) : Sprite :=
  {| cls := cls s; center_x := center_x s; center_y := v;
     change_x := change_x s; change_y := change_y s;
     width := width s; height := height s; alpha := alpha s |}.
Definition set_change_x (v : Q) (s : Sprite) : Sprite :=
  {| cls := cls s; center_x := center_x s; center_y := center_y s;
     change_x := v; change_y := change_y s;
     width := width s; height := height s; alpha := alpha s |}.
Definition set_change_y (v : Q) (s : Sprite) : Sprite :=
  {| cls := cls s; center_x := center_x s; center_y := center_y s;
     change_x := change_x s; change_y := v;
     width := width s; height := height s; alpha := alpha s |}.
Definition set_alpha (v : Z) (s : Sprite) : Sprite :=
  {| cls := cls s; center_x := center_x s; center_y := center_y s;
     change_x := change_x s; change_y := change_y s;
     width := width s; height := height s; alpha := v |}.
Definition set_cls (c : SpriteClass) (s : Sprite) : Sprite :=
  {| cls := c; center_x := center_x s; center_y := center_y s;
     change_x := change_x s; change_y := change_y s;
     width := width s; height := height s; alpha := alpha s |}.

(** The edges of the axis-aligned box of a sprite. *)
Definition left (s : Sprite) : Q := center_x s - width s / 2.
Definition right (s : Sprite) : Q := center_x s + width s / 2.
Definition bottom (s : Sprite) : Q := center_y s - height s / 2.
Definition top (s : Sprite) : Q := center_y s + height s / 2.

(** Assigning to an edge moves the centre by the difference. *)
Definition set_left (v : Q) (s : Sprite) : Sprite :=
  set_center_x (center_x s + (v - left s)) s.
Definition set_right (v : Q) (s : Sprite) : Sprite :=
  set_center_x (center_x s + (v - right s)) s.
Definition set_bottom (v : Q) (s : Sprite) : Sprite :=
  set_center_y (center_y s + (v - bottom s)) s.
Definition set_top (v : Q) (s : Sprite) : Sprite :=
  set_center_y (center_y s + (v - top s)) s.

(** ** class Player *)

Module Player.

Record t : Type := mk {
  sprite : Sprite;
  face_right : bool
}.

(** [Player.__init__]: a 40 x 10 solid sprite facing right. *)
Definition init : t :=
  {| sprite := new_sprite SpriteSolidColor 40 10; face_right := true |}.

Definition with_sprite (f : Sprite -> Sprite) (p : t) : t :=
  {| sprite := f (sprite p); face_right := face_right p |}.
Definition set_face_right (b : bool) (p : t) : t :=
  {| sprite := sprite p; face_right := b |}.

Definition accelerate_up (p : t) : t :=
  let p := with_sprite (fun s => set_change_y (change_y s + VERTICAL_ACCELERATION) s) p in
  if gtb (change_y (sprite p)) MAX_VERTICAL_MOVEMENT_SPEED
  then with_sprite (set_change_y MAX_VERTICAL_MOVEMENT_SPEED) p
  else p.

Definition accelerate_down (p : t) : t :=
  let p := with_sprite (fun s => set_change_y (change_y s - VERTICAL_ACCELERATION) s) p in
  if ltb (change_y (sprite p)) (- MAX_VERTICAL_MOVEMENT_SPEED)
  then with_sprite (set_change_y (- MAX_VERTICAL_MOVEMENT_SPEED)) p
  else p.

Definition accelerate_right (p : t) : t :=
  let p := set_face_right true p in
  let p := with_sprite (fun s => set_change_x (change_x s + HORIZONTAL_ACCELERATION) s) p in
  if gtb (change_x (sprite p)) MAX_HORIZONTAL_MOVEMENT_SPEED
  then with_sprite (set_change_x MAX_HORIZONTAL_MOVEMENT_SPEED) p
  else p.

Definition accelerate_left (p : t) : t :=
  let p := set_face_right false p in
  let p := with_sprite (fun s => set_change_x (change_x s - HORIZONTAL_ACCELERATION) s) p in
  if ltb (change_x (sprite p)) (- MAX_HORIZONTAL_MOVEMENT_SPEED)
  then with_sprite (set_change_x (- MAX_HORIZONTAL_MOVEMENT_SPEED)) p
  else p.

(** The three statements of the drag on one velocity component. *)
Definition drag (v : Q) : Q :=
  let v := if gtb v 0 then v - MOVEMENT_DRAG else v in
  let v := if ltb v 0 then v + MOVEMENT_DRAG else v in
  if ltb (Qabs v) MOVEMENT_DRAG then 0 else v.

(** The bounds check at the end of [update]. *)
Definition check_bounds (s : Sprite) : Sprite :=
  let s :=
    if ltb (left s) 0 then set_left 0 s
    else if gtb (right s) (PLAYING_FIELD_WIDTH - 1)
         then set_right (PLAYING_FIELD_WIDTH - 1) s
         else s in
  if ltb (bottom s) 0 then set_bottom 0 s
  else if gtb (top s) (SCREEN_HEIGHT - 1)
       then set_top (SCREEN_HEIGHT - 1) s
       else s.

Definition update_sprite (s : Sprite) : Sprite :=
  (* Move *)
  let s := set_center_x (center_x s + change_x s) s in
  let s := set_center_y (center_y s + change_y s) s in
  (* Drag *)
  let s := set_change_x (drag (change_x s)) s in
  let s := set_change_y (drag (change_y s)) s in
  (* Check bounds *)
  check_bounds s.

Definition update (p : t) : t := with_sprite update_sprite p.

End Player.

(** ** Sprite updates

    An [update] method mutates its object and may call
    [remove_from_sprite_lists] on it.  The method body is a function from
    the object to the updated object and a flag telling whether the object
    asked to be removed. *)

(** The two [# Move] statements shared by the update methods. *)
Definition move (s : Sprite) : Sprite :=
  let s := set_center_x (center_x s + change_x s) s in
  set_center_y (center_y s + change_y s) s.

(** ** class Bullet *)

Module Bullet.

(** [Bullet.__init__]: the base initialiser, then [self.distance = 0]. *)
Definition init (w h : Q) : Sprite := new_sprite (BulletClass 0) w h.

(** The [distance] attribute; only objects of class [Bullet] have one. *)
Definition distance (s : Sprite) : option Q :=
  match cls s with
  | BulletClass d => Some d
  | _ => None
  end.

(** [self.distance > BULLET_MAX_DISTANCE], the removal condition. *)
Definition too_far (d : Q) : bool := gtb d BULLET_MAX_DISTANCE.

(** The method of the objects of class [Bullet]; no other object runs
    it, and the last case is there for totality only. *)
Definition update (s : Sprite) : Sprite * bool :=
  let s := move s in
  match cls s with
  | BulletClass d =>
      let d := d + change_x s in
      (set_cls (BulletClass d) s, too_far d)
  | _ => (s, false)
  end.

End Bullet.

(** ** class Particle *)

Module Particle.

(** [Particle(w, h, color)]: the class has no initialiser of its own. *)
Definition init (w h : Q) : Sprite := new_sprite ParticleClass w h.

Definition update (s : Sprite) : Sprite * bool :=
  let s := move s in
  (* Fade *)
  let s := set_alpha (alpha s - 5)%Z s in
  (s, (alpha s <=? 0)%Z).

End Particle.

(** The [update] an object runs is the one of its class; a plain
    [SpriteSolidColor] inherits the base method, which only moves it. *)
Definition update_method (s : Sprite) : Sprite * bool :=
  match cls s with
  | SpriteSolidColor => (move s, false)
  | BulletClass _ => Bullet.update s
  | ParticleClass => Particle.update s
  end.

(** ** class MyGame: the state of the window object

    [heap] is the object store, [next_id] the next unused identity.  The
    single player object is kept by value; [player_list] holds nothing but
    it.  [view_left] and [view_bottom] are integers whenever a handler is
    entered: [0] at first, [int(...)] at the end of every [on_update]. *)

Record MyGame : Type := mkGame {
  heap : nat -> Sprite;
  next_id : nat;
  player_sprite : Player.t;
  star_sprite_list : list nat;
  enemy_sprite_list : list nat;
  bullet_sprite_list : list nat;
  left_pressed : bool;
  right_pressed : bool;
  up_pressed : bool;
  down_pressed : bool;
  view_bottom : Z;
  view_left : Z
}.

Definition set_heap (h : nat -> Sprite) (n : nat) (g : MyGame) : MyGame :=
  mkGame h n (player_sprite g) (star_sprite_list g) (enemy_sprite_list g)
         (bullet_sprite_list g) (left_pressed g) (right_pressed g)
         (up_pressed g) (down_pressed g) (view_bottom g) (view_left g).
Definition set_player (p : Player.t) (g : MyGame) : MyGame :=
  mkGame (heap g) (next_id g) p (star_sprite_list g) (enemy_sprite_list g)
         (bullet_sprite_list g) (left_pressed g) (right_pressed g)
         (up_pressed g) (down_pressed g) (view_bottom g) (view_left g).
Definition set_lists (stars enemies bullets : list nat) (g : MyGame) : MyGame :=
  mkGame (heap g) (next_id g) (player_sprite g) stars enemies bullets
         (left_pressed g) (right_pressed g)
         (up_pressed g) (down_pressed g) (view_bottom g) (view_left g).
Definition set_pressed (l r u d : bool) (g : MyGame) : MyGame :=
  mkGame (heap g) (next_id g) (player_sprite g) (star_sprite_list g)
         (enemy_sprite_list g) (bullet_sprite_list g) l r u d
         (view_bottom g) (view_left g).
Definition set_view (vb vl : Z) (g : MyGame) : MyGame :=
  mkGame (heap g) (next_id g) (player_sprite g) (star_sprite_list g)
         (enemy_sprite_list g) (bullet_sprite_list g) (left_pressed g)
         (right_pressed g) (up_pressed g) (down_pressed g) vb vl.

(** Writing the object [i] of the store. *)
Definition store (i : nat) (s : Sprite) (h : nat -> Sprite) : nat -> Sprite :=
  fun j => if Nat.eqb j i then s else h j.

Definition mutate (i : nat) (f : Sprite -> Sprite) (g : MyGame) : MyGame :=
  set_heap (store i (f (heap g i)) (heap g)) (next_id g) g.

(** Creating an object: it takes the next identity. *)
Definition alloc (s : Sprite) (g : MyGame) : nat * MyGame :=
  (next_id g, set_heap (store (next_id g) s (heap g)) (S (next_id g)) g).

(** *** Sprite lists

    Modelled from the spec: [arcade.SpriteList] is not part of the file; the
    spec gives the collections append and removal, also while they are
    iterated.  A list holds the identities of its sprites in the order of
    their insertion; [append] adds an entry at the end, whether or not the
    sprite is in the list already. *)

Definition remove_id (i : nat) (l : list nat) : list nat :=
  filter (fun j => negb (Nat.eqb j i)) l.

(** [sprite.remove_from_sprite_lists()]: the sprite leaves every list. *)
Definition remove_from_sprite_lists (i : nat) (g : MyGame) : MyGame :=
  set_lists (remove_id i (star_sprite_list g))
            (remove_id i (enemy_sprite_list g))
            (remove_id i (bullet_sprite_list g)) g.

Definition append_star (i : nat) (g : MyGame) : MyGame :=
  set_lists (star_sprite_list g ++ [i]) (enemy_sprite_list g)
            (bullet_sprite_list g) g.
Definition append_enemy (i : nat) (g : MyGame) : MyGame :=
  set_lists (star_sprite_list g) (enemy_sprite_list g ++ [i])
            (bullet_sprite_list g) g.
Definition append_bullet (i : nat) (g : MyGame) : MyGame :=
  set_lists (star_sprite_list g) (enemy_sprite_list g)
            (bullet_sprite_list g ++ [i]) g.

(** [SpriteList.update()]: the entries the list has when the update starts
    are taken in order, and every one that is still in the list when its
    turn comes runs the [update] of its object. *)
Definition update_entry (g : MyGame) (i : nat) : MyGame :=
  if existsb (Nat.eqb i) (bullet_sprite_list g) then
    let (s, removed) := update_method (heap g i) in
    let g := mutate i (fun _ => s) g in
    if removed then remove_from_sprite_lists i g else g
  else g.

Definition update_bullets (g : MyGame) : MyGame :=
  fold_left update_entry (bullet_sprite_list g) g.

(** *** The random generator

    [random.randrange] is called in two places, and both draw two numbers in
    a row.  A tape lists the pairs the generator will return, first draw
    first. *)
Definition Tape : Type := list (Z * Z).

(** *** __init__ and setup *)

(** [MyGame.__init__]: the key flags and the offsets.  The player and the
    three lists, which [__init__] leaves [None] until [setup] assigns them,
    stand here with the values [setup] gives them first; the game is played
    from the state after [setup]. *)
Definition init : MyGame :=
  {| heap := fun _ => new_sprite SpriteSolidColor 0 0; next_id := 0;
     player_sprite := Player.init;
     star_sprite_list := []; enemy_sprite_list := []; bullet_sprite_list := [];
     left_pressed := false; right_pressed := false;
     up_pressed := false; down_pressed := false;
     view_bottom := 0; view_left := 0 |}.

(** One round of a [for i in range(n)] loop of [setup]: a solid sprite of
    side [side] at a random place joins a list. *)
Fixpoint add_sprites (n : nat) (side : Q) (append : nat -> MyGame -> MyGame)
         (tape : Tape) (g : MyGame) : option (MyGame * Tape) :=
  match n with
  | O => Some (g, tape)
  | S n' =>
      match tape with
      | [] => None
      | (x, y) :: tape' =>
          let (i, g) := alloc (new_sprite SpriteSolidColor side side) g in
          let g := mutate i (set_center_x (inject_Z x)) g in
          let g := mutate i (set_center_y (inject_Z y)) g in
          add_sprites n' side append tape' (append i g)
      end
  end.

Definition setup (tape : Tape) (g : MyGame) : option (MyGame * Tape) :=
  let g := set_lists [] [] [] g in
  let p := Player.init in
  let p := Player.with_sprite (set_center_x 50) p in
  let p := Player.with_sprite (set_center_y 50) p in
  let g := set_player p g in
  match add_sprites 80 4 append_star tape g with
  | None => None
  | Some (g, tape) => add_sprites 20 20 append_enemy tape g
  end.

(** *** Key handlers *)

Inductive Key : Type := UP | DOWN | LEFT | RIGHT | SPACE | OtherKey (code : Z).

(** The horizontal velocity given to a fired sprite. *)
Definition fired_change_x (p : Player.t) : Q :=
  let v := Qmax 12 (Qabs (change_x (Player.sprite p)) + 10) in
  if negb (Player.face_right p) then v * -1 else v.

Definition on_key_press (key : Key) (g : MyGame) : MyGame :=
  match key with
  | UP => set_pressed (left_pressed g) (right_pressed g) true (down_pressed g) g
  | DOWN => set_pressed (left_pressed g) (right_pressed g) (up_pressed g) true g
  | LEFT => set_pressed true (right_pressed g) (up_pressed g) (down_pressed g) g
  | RIGHT => set_pressed (left_pressed g) true (up_pressed g) (down_pressed g) g
  | SPACE =>
      (* Shoot out a bullet/laser *)
      let (bullet, g) := alloc (new_sprite SpriteSolidColor 35 3) g in
      let g := mutate bullet (set_center_x (center_x (Player.sprite (player_sprite g)))) g in
      let g := mutate bullet (set_center_y (center_y (Player.sprite (player_sprite g)))) g in
      let g := mutate bullet (set_change_x (fired_change_x (player_sprite g))) g in
      append_bullet bullet g
  | OtherKey _ => g
  end.

Definition on_key_release (key : Key) (g : MyGame) : MyGame :=
  match key with
  | UP => set_pressed (left_pressed g) (right_pressed g) false (down_pressed g) g
  | DOWN => set_pressed (left_pressed g) (right_pressed g) (up_pressed g) false g
  | LEFT => set_pressed false (right_pressed g) (up_pressed g) (down_pressed g) g
  | RIGHT => set_pressed (left_pressed g) false (up_pressed g) (down_pressed g) g
  | _ => g
  end.

(** *** on_update *)

(** The speed computed from the keys pressed. *)
Definition apply_keys (g : MyGame) : Player.t :=
  let p := player_sprite g in
  let p :=
    if up_pressed g && negb (down_pressed g) then Player.accelerate_up p
    else if down_pressed g && negb (up_pressed g) then Player.accelerate_down p
    else p in
  if left_pressed g && negb (right_pressed g) then Player.accelerate_left p
  else if right_pressed g && negb (left_pressed g) then Player.accelerate_right p
  else p.

(** The physics step of the player: the accelerations of the keys, then
    [player_list.update()]. *)
Definition physics_step (g : MyGame) : MyGame :=
  set_player (Player.update (apply_keys g)) g.

Section Collisions.

(** [arcade.check_for_collision_with_list] is library code; the test of
    one sprite against another is a parameter of the model. *)
Variable check_for_collision : Sprite -> Sprite -> bool.

Definition check_for_collision_with_list (g : MyGame) (sprite : nat)
           (sprite_list : list nat) : list nat :=
  filter (fun e => check_for_collision (heap g sprite) (heap g e)) sprite_list.

(** The [while] loop on a new particle.  Its body draws, places the
    particle and appends it, once per round. *)
Fixpoint reroll (tape : Tape) (particle enemy : nat) (g : MyGame)
         {struct tape} : option (MyGame * Tape) :=
  if eqb (change_y (heap g particle)) 0 && eqb (change_x (heap g particle)) 0
  then
    match tape with
    | [] => None
    | (ry, rx) :: tape' =>
        let g := mutate particle (set_change_y (inject_Z ry)) g in
        let g := mutate particle (set_change_x (inject_Z rx)) g in
        let g := mutate particle (set_center_x (center_x (heap g enemy))) g in
        let g := mutate particle (set_center_y (center_y (heap g enemy))) g in
        let g := append_bullet particle g in
        reroll tape' particle enemy g
    end
  else Some (g, tape).

(** [for i in range(n)]: a new particle per round. *)
Fixpoint spawn (n : nat) (enemy : nat) (g : MyGame) (tape : Tape)
  : option (MyGame * Tape) :=
  match n with
  | O => Some (g, tape)
  | S n' =>
      let (particle, g) := alloc (Particle.init 4 4) g in
      match reroll tape particle enemy g with
      | None => None
      | Some (g, tape) => spawn n' enemy g tape
      end
  end.

(** [for enemy in enemy_hit_list]. *)
Fixpoint destroy (enemy_hit_list : list nat) (g : MyGame) (tape : Tape)
  : option (MyGame * Tape) :=
  match enemy_hit_list with
  | [] => Some (g, tape)
  | enemy :: rest =>
      let g := remove_from_sprite_lists enemy g in
      match spawn 10 enemy g tape with
      | None => None
      | Some (g, tape) => destroy rest g tape
      end
  end.

(** [for bullet in self.bullet_sprite_list]: the iteration walks the list
    by position and sees the entries appended meanwhile. *)
Fixpoint collide_from (fuel : nat) (i : nat) (g : MyGame) (tape : Tape)
  : option (MyGame * Tape) :=
  match fuel with
  | O => None
  | S fuel' =>
      match nth_error (bullet_sprite_list g) i with
      | None => Some (g, tape)
      | Some bullet =>
          let enemy_hit_list :=
            check_for_collision_with_list g bullet (enemy_sprite_list g) in
          match destroy enemy_hit_list g tape with
          | None => None
          | Some (g, tape) => collide_from fuel' (S i) g tape
          end
      end
  end.

(** Every appended entry uses up a pair of the tape, so the walk makes at
    most as many rounds as there are entries and pairs. *)
Definition collisions (g : MyGame) (tape : Tape) : option (MyGame * Tape) :=
  collide_from (S (List.length (bullet_sprite_list g) + List.length tape)) 0 g tape.

(** The horizontal offset after [# Scroll left] and [# Scroll right]. *)
Definition scroll_horizontal (p : Sprite) (view_left : Q) : Q :=
  let left_boundary := view_left + VIEWPORT_MARGIN in
  let view_left :=
    if ltb (left p) left_boundary
    then view_left - (left_boundary - left p) else view_left in
  let right_boundary := view_left + SCREEN_WIDTH - VIEWPORT_MARGIN in
  if gtb (right p) right_boundary
  then view_left + (right p - right_boundary) else view_left.

(** The vertical offset after [# Scroll up]. *)
Definition scroll_vertical (p : Sprite) : Q :=
  let view_bottom := DEFAULT_BOTTOM_VIEWPORT in
  let top_boundary :=
    view_bottom + SCREEN_HEIGHT - TOP_VIEWPORT_MARGIN - MINIMAP_HEIGHT in
  if gtb (top p) top_boundary
  then view_bottom + (top p - top_boundary) else view_bottom.

Definition camera (g : MyGame) : MyGame :=
  let p := Player.sprite (player_sprite g) in
  set_view (int (scroll_vertical p))
           (int (scroll_horizontal p (inject_Z (view_left g)))) g.

(** [on_update]; [None] when the tape runs out of pairs. *)
Definition on_update (tape : Tape) (g : MyGame) : option (MyGame * Tape) :=
  let g := physics_step g in
  let g := update_bullets g in
  match collisions g tape with
  | None => None
  | Some (g, tape) => Some (camera g, tape)
  end.

End Collisions.

(** Modelled from the spec: the collision test of the library is missing;
    the spec has it as the overlap of the two bounding boxes. *)
Definition boxes_overlap (a b : Sprite) : bool :=
  leb (left a) (right b) && leb (left b) (right a) &&
  leb (bottom a) (top b) && leb (bottom b) (top a).

(** *** on_draw *)

Inductive Target : Type := minimap_screen | play_screen | window.

(** The calls [on_draw] makes to the drawing library, with their
    arguments. *)
Inductive DrawCall : Type :=
| start_render
| use (t : Target)
| clear (t : Target)
| set_viewport (l r b t : Q)
| draw (sprites : list Sprite)
| draw_line (x1 y1 x2 y2 : Q)
| glDisable_BLEND
| glow_render
| glEnable_BLEND
| draw_rectangle_filled (x y w h : Q)
| use_minimap_color_attachment
| mini_map_quad_render
| draw_rectangle_outline (x y w h : Q).

Definition sprites_of (g : MyGame) (l : list nat) : list Sprite :=
  map (heap g) l.

(** The body of the [try], in order. *)
Definition render_sequence (g : MyGame) : list DrawCall :=
  let vl := inject_Z (view_left g) in
  let vb := inject_Z (view_bottom g) in
  let player_list := [Player.sprite (player_sprite g)] in
  let width_ratio := SCREEN_WIDTH / PLAYING_FIELD_WIDTH in
  let height_ratio := MINIMAP_HEIGHT / PLAYING_FIELD_HEIGHT in
  let w := width_ratio * SCREEN_WIDTH in
  let h := height_ratio * MAIN_SCREEN_HEIGHT in
  let x := (vl + SCREEN_WIDTH / 2) * width_ratio + vl in
  let y := vb + h / 2 + (SCREEN_HEIGHT - MINIMAP_HEIGHT) + vb * height_ratio in
  [ start_render;
    use minimap_screen;
    clear minimap_screen;
    set_viewport 0 PLAYING_FIELD_WIDTH 0 SCREEN_HEIGHT;
    draw (sprites_of g (enemy_sprite_list g));
    draw player_list;
    use play_screen;
    clear play_screen;
    set_viewport vl (SCREEN_WIDTH + vl) vb (SCREEN_HEIGHT + vb);
    draw (sprites_of g (star_sprite_list g));
    draw (sprites_of g (bullet_sprite_list g));
    draw_line 0 0 PLAYING_FIELD_WIDTH 0;
    use window;
    set_viewport vl (SCREEN_WIDTH + vl) vb (SCREEN_HEIGHT + vb);
    glDisable_BLEND;
    glow_render;
    glEnable_BLEND;
    draw (sprites_of g (enemy_sprite_list g));
    draw player_list;
    draw_line 0 0 PLAYING_FIELD_WIDTH 0;
    draw_rectangle_filled (SCREEN_WIDTH - SCREEN_WIDTH / 2 + vl)
                          (SCREEN_HEIGHT - SCREEN_HEIGHT / 8 + vb)
                          SCREEN_WIDTH (SCREEN_HEIGHT / 4);
    use_minimap_color_attachment;
    mini_map_quad_render;
    draw_rectangle_outline x y w h ].

(** What a call can raise.  Python's [except Exception] catches the
    instances of [Exception]; [KeyboardInterrupt], [SystemExit] and
    [GeneratorExit] derive from [BaseException] only. *)
Inductive PyException : Type :=
| Exception (name : string)
| KeyboardInterrupt
| SystemExit
| GeneratorExit.

Definition isinstance_Exception (e : PyException) : bool :=
  match e with
  | Exception _ => true
  | _ => false
  end.

(** How a handler ends: it returns, or an exception leaves it. *)
Inductive Outcome : Type :=
| Returned
| Raised (e : PyException).

Section Rendering.

(** The drawing library: its state, and what a call does to it; a call
    returns or raises. *)
Variable Backend : Type.
Variable call : DrawCall -> Backend -> Backend * option PyException.

(** Statements in sequence: the first one that raises ends the run. *)
Fixpoint run (calls : list DrawCall) (b : Backend)
  : Backend * option PyException :=
  match calls with
  | [] => (b, None)
  | c :: rest =>
      match call c b with
      | (b, Some e) => (b, Some e)
      | (b, None) => run rest b
      end
  end.

(** The state around a handler: the game, the drawing library and what
    [traceback.print_exc()] has written. *)
Record World : Type := mkWorld {
  game : MyGame;
  backend : Backend;
  stderr : list PyException
}.

Definition on_draw (w : World) : World * Outcome :=
  match run (render_sequence (game w)) (backend w) with
  | (b, None) => (mkWorld (game w) b (stderr w), Returned)
  | (b, Some e) =>
      if isinstance_Exception e
      then (mkWorld (game w) b (stderr w ++ [e]), Returned)
      else (mkWorld (game w) b (stderr w), Raised e)
  end.

End Rendering.

Arguments mkWorld {Backend}.
Arguments game {Backend}.
Arguments backend {Backend}.
Arguments stderr {Backend}.
Arguments run {Backend}.
Arguments on_draw {Backend}.

(** ** Predicates of the statements *)

(** The velocity of a sprite is within the two speed limits. *)
Definition speed_ok (s : Sprite) : Prop :=
  Qabs (change_x s) <= MAX_HORIZONTAL_MOVEMENT_SPEED /\
  Qabs (change_y s) <= MAX_VERTICAL_MOVEMENT_SPEED.

(** The player at full speed to the right with the right key held. *)
Definition full_speed_right : MyGame :=
  set_pressed false true false false
    (set_player
       (Player.with_sprite (set_change_x MAX_HORIZONTAL_MOVEMENT_SPEED) Player.init)
       init).


(** The player's box lies in the playing field. *)
Definition in_field (s : Sprite) : Prop :=
  0 <= left s /\ right s <= PLAYING_FIELD_WIDTH /\
  0 <= bottom s /\ top s <= PLAYING_FIELD_HEIGHT.

(** The sprite is not beyond the two scroll margins of the offset. *)
Definition pinned (s : Sprite) (view_left : Q) : Prop :=
  view_left + VIEWPORT_MARGIN <= left s /\
  right s <= view_left + SCREEN_WIDTH - VIEWPORT_MARGIN.

(** The same with a slack of one pixel on either side. *)
Definition pinned_within_a_pixel (s : Sprite) (view_left : Q) : Prop :=
  view_left + VIEWPORT_MARGIN - 1 < left s /\
  right s < view_left + SCREEN_WIDTH - VIEWPORT_MARGIN + 1.

(** ** Example states *)

(** A tape for [setup]: a hundred places spread over the field. *)
Definition demo_tape : Tape :=
  map (fun i => ((Z.of_nat i * 61) mod 5000, (Z.of_nat i * 37) mod 600)%Z)
      (seq 0 100).

(** The game after [__init__] and [setup]. *)
Definition start_game : MyGame :=
  match setup demo_tape init with
  | Some (g, _) => g
  | None => init
  end.

(** The first tick with the right key held: the physics step of
    [on_update], its bullets and collisions having nothing to do. *)
Definition first_tick_right : MyGame :=
  match on_update boxes_overlap [] (on_key_press RIGHT start_game) with
  | Some (g, _) => g
  | None => start_game
  end.

(** The player of a state given another horizontal velocity. *)
Definition moving (v : Q) (g : MyGame) : MyGame :=
  set_player (Player.with_sprite (set_change_x v) (player_sprite g)) g.

(** [n] ticks in the life of one object of a sprite list: its [update]
    runs once per tick for as long as it is in the list; [None] once it
    has removed itself. *)
Fixpoint updates (n : nat) (s : Sprite) : option Sprite :=
  match n with
  | O => Some s
  | S n' =>
      match updates n' s with
      | None => None
      | Some s =>
          let (s, removed) := update_method s in
          if removed then None else Some s
      end
  end.

(** A number of ticks as a number. *)
Definition ticks (n : nat) : Q := inject_Z (Z.of_nat n).

(** The sum that [n] updates form: [c] added [n] times to [x], one
    addition per update, in the order of the code. *)
Definition added (n : nat) (c x : Q) : Q := Nat.iter n (fun d => d + c) x.



(** A drawing library without state whose first call is interrupted from
    the keyboard. *)
Definition interrupted (c : DrawCall) (b : unit) : unit * option PyException :=
  match c with
  | start_render => (b, Some KeyboardInterrupt)
  | _ => (b, None)
  end.

(** A drawing library that counts the calls made and whose glow pass
    fails. *)
Definition glow_fails (c : DrawCall) (b : nat) : nat * option PyException :=
  match c with
  | glow_render => (S b, Some (Exception "GLException"))
  | _ => (S b, None)
  end.

(** A pair of draws that ends the [while] loop of a new particle: not both
    zero. *)
Definition live (r : Z * Z) : bool :=
  negb ((fst r =? 0)%Z && (snd r =? 0)%Z).

Definition count_live (tape : Tape) : nat := List.length (filter live tape).

(** The identities in the lists are those of objects created so far, and
    no object is both an enemy and a bullet. *)
Definition wf (g : MyGame) : Prop :=
  (forall i, In i (enemy_sprite_list g) -> (i < next_id g)%nat) /\
  (forall i, In i (bullet_sprite_list g) ->
             (i < next_id g)%nat /\ ~ In i (enemy_sprite_list g)).

Definition wfb (g : MyGame) : bool :=
  forallb (fun i => Nat.ltb i (next_id g)) (enemy_sprite_list g) &&
  forallb (fun i => Nat.ltb i (next_id g) &&
                    negb (existsb (Nat.eqb i) (enemy_sprite_list g)))
          (bullet_sprite_list g).

(** The object [i] is a particle of the bullet list, placed where the
    sprite [e] is, with a velocity that is not zero. *)
Definition particle_at (g : MyGame) (e : Sprite) (i : nat) : Prop :=
  In i (bullet_sprite_list g) /\
  cls (heap g i) = ParticleClass /\
  center_x (heap g i) = center_x e /\
  center_y (heap g i) = center_y e /\
  ~ (change_x (heap g i) == 0 /\ change_y (heap g i) == 0).

(** Ten particles in a row, from the identity [base] on, placed at [e]. *)
Definition burst (g : MyGame) (e : Sprite) (base : nat) : Prop :=
  forall k, (k < 10)%nat -> particle_at g e (base + k).

(** One round of the [while] loop on a new particle, with the draws
    [(ry, rx)]. *)
Definition place (ry rx : Z) (particle enemy : nat) (g : MyGame) : MyGame :=
  let g := mutate particle (set_change_y (inject_Z ry)) g in
  let g := mutate particle (set_change_x (inject_Z rx)) g in
  let g := mutate particle (set_center_x (center_x (heap g enemy))) g in
  let g := mutate particle (set_center_y (center_y (heap g enemy))) g in
  append_bullet particle g.

(** The enemies left once those of a hit list are gone. *)
Definition survivors (hits enemies : list nat) : list nat :=
  filter (fun i => negb (existsb (Nat.eqb i) hits)) enemies.

(** A small game: the player at its starting place and two enemies, the
    first in the line of fire, the second a little above it. *)
Definition duel : MyGame :=
  let p := Player.with_sprite (set_center_x 50) Player.init in
  let p := Player.with_sprite (set_center_y 50) p in
  match add_sprites 2 20 append_enemy [(80, 50); (85, 68)]%Z (set_player p init) with
  | Some (g, _) => g
  | None => init
  end.

(** A tape for one burst whose first pair is two zeros. *)
Definition zero_first : Tape :=
  [(0, 0); (2, 0); (1, 1); (-1, 2); (2, -2); (0, 1); (1, 0); (-2, -1);
   (1, -1); (-1, 0); (0, -2)]%Z.

(** A tape for one burst without such a pair. *)
Definition ten_live : Tape :=
  [(2, 0); (1, 1); (-1, 2); (2, -2); (0, 1); (1, 0); (-2, -1); (1, -1);
   (-1, 0); (0, -2)]%Z.

(** One tick of the game with the overlap of boxes as collision test;
    the state stays when the tape is too short. *)
Definition tick (tape : Tape) (g : MyGame) : MyGame :=
  match on_update boxes_overlap tape g with
  | Some (g, _) => g
  | None => g
  end.

(** The small game three ticks after a shot that destroyed the first enemy
    on the first tick: the particles of the burst are on their way. *)
Definition particles_flying : MyGame :=
  tick [] (tick [] (tick ten_live (on_key_press SPACE duel))).

(** ** Further predicates and example states *)

(** The box of a sprite lies within what [check_bounds] allows. *)
Definition in_bounds (s : Sprite) : Prop :=
  0 <= left s /\ right s <= PLAYING_FIELD_WIDTH - 1 /\
  0 <= bottom s /\ top s <= SCREEN_HEIGHT - 1.

(** No direction key has an effect: on either axis the two keys are both
    held or both released. *)
Definition keys_cancel (g : MyGame) : Prop :=
  left_pressed g = right_pressed g /\ up_pressed g = down_pressed g.

(** The player of a state given a velocity. *)
Definition drifting (vx vy : Q) (g : MyGame) : MyGame :=
  set_player
    (Player.with_sprite (set_change_y vy)
       (Player.with_sprite (set_change_x vx) (player_sprite g))) g.

(** The player of a state put at a place. *)
Definition player_at (x y : Q) (g : MyGame) : MyGame :=
  set_player
    (Player.with_sprite (set_center_y y)
       (Player.with_sprite (set_center_x x) (player_sprite g))) g.

(** The latch of a direction key; the other keys have none. *)
Definition held (key : Key) (g : MyGame) : bool :=
  match key with
  | UP => up_pressed g
  | DOWN => down_pressed g
  | LEFT => left_pressed g
  | RIGHT => right_pressed g
  | _ => false
  end.

Definition is_direction (key : Key) : bool :=
  match key with
  | UP | DOWN | LEFT | RIGHT => true
  | _ => false
  end.

(** What the walk over the bullet list never writes: the player, the key
    latch and the offsets of the view. *)
Definition same_controls (g g' : MyGame) : Prop :=
  player_sprite g' = player_sprite g /\
  left_pressed g' = left_pressed g /\ right_pressed g' = right_pressed g /\
  up_pressed g' = up_pressed g /\ down_pressed g' = down_pressed g /\
  view_bottom g' = view_bottom g /\ view_left g' = view_left g.

(** No entry of the bullet list touches an enemy. *)
Definition no_contact (check_for_collision : Sprite -> Sprite -> bool)
           (g : MyGame) : Prop :=
  forall b e, In b (bullet_sprite_list g) -> In e (enemy_sprite_list g) ->
              check_for_collision (heap g b) (heap g e) = false.

(** The same, as a test that runs. *)
Definition no_contactb (check_for_collision : Sprite -> Sprite -> bool)
           (g : MyGame) : bool :=
  forallb (fun b => forallb (fun e => negb (check_for_collision (heap g b) (heap g e)))
                            (enemy_sprite_list g))
          (bullet_sprite_list g).

(** The small game with a shot in the air. *)
Definition shot_game : MyGame := on_key_press SPACE duel.

(** A tape for two bursts. *)
Definition two_bursts : Tape := ten_live ++ zero_first.

(** A solid square of side [side] placed at a pair of draws, first draw
    across and second draw up. *)
Definition placed (side : Q) (r : Z * Z) : Sprite :=
  set_center_y (inject_Z (snd r))
    (set_center_x (inject_Z (fst r)) (new_sprite SpriteSolidColor side side)).

(** A drawing library that only keeps the list of the calls made to it;
    [raises] tells which calls fail, and with what. *)
Definition traced (raises : DrawCall -> option PyException)
           (c : DrawCall) (trace : list DrawCall)
  : list DrawCall * option PyException :=
  (trace ++ [c], raises c).

(** The glow pass fails, nothing else does. *)
Definition glow_raises (e : PyException) (c : DrawCall) : option PyException :=
  match c with
  | glow_render => Some e
  | _ => None
  end.


(** The game after [setup] with a shot in the air. *)
Definition first_shot : MyGame := on_key_press SPACE start_game.
(** * Properties *)

(** ** Comparisons and truncation *)



(** Splitting on every comparison of a goal. *)
Ltac split_cmp :=
  unfold gtb, leb, ltb in *;
  repeat match goal with
         | |- context [Qlt_le_dec ?a ?b] => destruct (Qlt_le_dec a b)
         | H : context [Qlt_le_dec ?a ?b] |- _ => destruct (Qlt_le_dec a b)
         end.

(** [lra] knows no division: the divisions by a literal become products. *)
Ltac no_div :=
  unfold Qdiv in *;
  repeat match goal with
         | |- context [/ (?n # ?d)] =>
             let v := eval vm_compute in (/ (n # d)) in
             change (/ (n # d)) with v
         | H : context [/ (?n # ?d)] |- _ =>
             let v := eval vm_compute in (/ (n # d)) in
             change (/ (n # d)) with v in H
         end.

Lemma Qabs_le_iff (x m : Q) : Qabs x <= m <-> - m <= x /\ x <= m.
Proof. apply Qabs_Qle_condition. Qed.

(** Truncation toward zero moves a number by less than one. *)
Lemma int_close (x : Q) : x - 1 < inject_Z (int x) /\ inject_Z (int x) < x + 1.
Proof.
  destruct x as [n d]. unfold int; simpl Qnum; simpl Qden.
  pose proof (Z.quot_rem' n (Zpos d)) as E.
  pose proof (Z.rem_bound_abs n (Zpos d) ltac:(lia)) as B.
  unfold Qlt, Qminus, Qplus, Qopp, inject_Z; simpl.
  rewrite !Z.mul_1_r, ?Pos.mul_1_r.
  split; nia.
Qed.

(** ** The player: velocity and position bounds *)

Ltac open_speed :=
  unfold speed_ok, MAX_HORIZONTAL_MOVEMENT_SPEED, MAX_VERTICAL_MOVEMENT_SPEED,
         HORIZONTAL_ACCELERATION, VERTICAL_ACCELERATION, MOVEMENT_DRAG in *;
  rewrite ?Qabs_le_iff in *.

Lemma accelerate_up_ok (p : Player.t) :
  speed_ok (Player.sprite p) -> speed_ok (Player.sprite (Player.accelerate_up p)).
Proof.
  unfold Player.accelerate_up. open_speed. intros [[? ?] [? ?]].
  simpl. split_cmp; simpl; repeat split; lra.
Qed.

Lemma accelerate_down_ok (p : Player.t) :
  speed_ok (Player.sprite p) -> speed_ok (Player.sprite (Player.accelerate_down p)).
Proof.
  unfold Player.accelerate_down. open_speed. intros [[? ?] [? ?]].
  simpl. split_cmp; simpl; repeat split; lra.
Qed.

Lemma accelerate_left_ok (p : Player.t) :
  speed_ok (Player.sprite p) -> speed_ok (Player.sprite (Player.accelerate_left p)).
Proof.
  unfold Player.accelerate_left. open_speed. intros [[? ?] [? ?]].
  simpl. split_cmp; simpl; repeat split; lra.
Qed.

Lemma accelerate_right_ok (p : Player.t) :
  speed_ok (Player.sprite p) -> speed_ok (Player.sprite (Player.accelerate_right p)).
Proof.
  unfold Player.accelerate_right. open_speed. intros [[? ?] [? ?]].
  simpl. split_cmp; simpl; repeat split; lra.
Qed.

Lemma apply_keys_ok (g : MyGame) :
  speed_ok (Player.sprite (player_sprite g)) ->
  speed_ok (Player.sprite (apply_keys g)).
Proof.
  intro H. unfold apply_keys.
  destruct (up_pressed g), (down_pressed g), (left_pressed g), (right_pressed g);
    cbn [andb negb];
    auto using accelerate_up_ok, accelerate_down_ok, accelerate_left_ok,
               accelerate_right_ok.
Qed.

Lemma drag_bounded (v m : Q) :
  MOVEMENT_DRAG <= m -> Qabs v <= m -> Qabs (Player.drag v) <= m.
Proof.
  unfold Player.drag. open_speed. intros Hm [Hlo Hhi].
  split_cmp; split; lra.
Qed.

Lemma check_bounds_velocity (s : Sprite) :
  change_x (Player.check_bounds s) = change_x s /\
  change_y (Player.check_bounds s) = change_y s.
Proof. unfold Player.check_bounds. split_cmp; split; reflexivity. Qed.

Lemma update_sprite_velocity (s : Sprite) :
  change_x (Player.update_sprite s) = Player.drag (change_x s) /\
  change_y (Player.update_sprite s) = Player.drag (change_y s).
Proof.
  unfold Player.update_sprite.
  split; [rewrite (proj1 (check_bounds_velocity _)) | rewrite (proj2 (check_bounds_velocity _))];
    reflexivity.
Qed.

Lemma update_ok (p : Player.t) :
  speed_ok (Player.sprite p) -> speed_ok (Player.sprite (Player.update p)).
Proof.
  intros [Hx Hy]. unfold Player.update. cbn [Player.with_sprite Player.sprite].
  destruct (update_sprite_velocity (Player.sprite p)) as [Ex Ey].
  split; [rewrite Ex | rewrite Ey]; apply drag_bounded; try assumption;
    unfold MOVEMENT_DRAG, MAX_HORIZONTAL_MOVEMENT_SPEED, MAX_VERTICAL_MOVEMENT_SPEED; lra.
Qed.

(** C7. Whatever keys are held, if the player's velocity is within
    [-MAX_HORIZONTAL_MOVEMENT_SPEED, MAX_HORIZONTAL_MOVEMENT_SPEED] and
    [-MAX_VERTICAL_MOVEMENT_SPEED, MAX_VERTICAL_MOVEMENT_SPEED] before the
    physics step, it is so after it. *)
Theorem velocity_stays_bounded (g : MyGame) :
  Qabs (change_x (Player.sprite (player_sprite g))) <= MAX_HORIZONTAL_MOVEMENT_SPEED ->
  Qabs (change_y (Player.sprite (player_sprite g))) <= MAX_VERTICAL_MOVEMENT_SPEED ->
  Qabs (change_x (Player.sprite (player_sprite (physics_step g)))) <= MAX_HORIZONTAL_MOVEMENT_SPEED /\
  Qabs (change_y (Player.sprite (player_sprite (physics_step g)))) <= MAX_VERTICAL_MOVEMENT_SPEED.
Proof.
  intros Hx Hy. unfold physics_step. cbn [player_sprite set_player].
  apply update_ok, apply_keys_ok. split; assumption.
Qed.

Lemma velocity_stays_bounded_witness :
  speed_ok (Player.sprite (player_sprite full_speed_right)) /\
  speed_ok (Player.sprite (player_sprite (physics_step full_speed_right))).
Proof.
  assert (H : speed_ok (Player.sprite (player_sprite full_speed_right))).
  { split; vm_compute; discriminate. }
  split; [exact H |].
  apply (velocity_stays_bounded full_speed_right); apply H.
Defined.

(** C8. After [Player.update] the box of the player, 40 wide and 10 high,
    lies in the playing field: left edge at least 0, right edge at most
    [PLAYING_FIELD_WIDTH], bottom at least 0, top at most
    [PLAYING_FIELD_HEIGHT]. *)
Theorem player_stays_in_field (p : Player.t) :
  width (Player.sprite p) == 40 -> height (Player.sprite p) == 10 ->
  in_field (Player.sprite (Player.update p)).
Proof.
  intros Hw Hh. unfold in_field, Player.update, Player.update_sprite, Player.check_bounds.
  cbn [Player.with_sprite Player.sprite].
  unfold set_left, set_right, set_bottom, set_top, left, right, bottom, top,
         PLAYING_FIELD_WIDTH, PLAYING_FIELD_HEIGHT, SCREEN_HEIGHT.
  cbn [set_center_x set_center_y set_change_x set_change_y center_x center_y width height].
  split_cmp;
  cbn [set_center_x set_center_y set_change_x set_change_y center_x center_y width height] in *;
  no_div; repeat split; lra.
Qed.

Lemma player_stays_in_field_witness :
  width (Player.sprite (player_sprite start_game)) == 40 /\
  height (Player.sprite (player_sprite start_game)) == 10 /\
  in_field (Player.sprite (Player.update (player_sprite start_game))).
Proof.
  split; [reflexivity | split; [reflexivity |]].
  apply (player_stays_in_field (player_sprite start_game)); reflexivity.
Defined.

(** ** The camera *)

Lemma scroll_horizontal_pins (p : Sprite) (view_left : Q) :
  width p == 40 -> pinned p (scroll_horizontal p view_left).
Proof.
  intro Hw. unfold pinned, scroll_horizontal, left, right,
    VIEWPORT_MARGIN, SCREEN_WIDTH.
  split_cmp; no_div; split; lra.
Qed.

(** C3, as the code has it. For a player 40 wide, after the camera
    correction at the end of the update step, with the offset truncated to
    an integer, the player's left edge is above the offset plus
    [VIEWPORT_MARGIN] less one, and its right edge is below the offset plus
    [SCREEN_WIDTH - VIEWPORT_MARGIN] plus one: either bound of the spec
    holds with a slack of less than one.  The correction does not move the
    player. *)
Theorem camera_pins_player_within_a_pixel (g : MyGame) :
  width (Player.sprite (player_sprite g)) == 40 ->
  let p := Player.sprite (player_sprite g) in
  pinned_within_a_pixel p (inject_Z (view_left (camera g))) /\
  Player.sprite (player_sprite (camera g)) = p.
Proof.
  intros Hw p. split.
  - destruct (scroll_horizontal_pins p (inject_Z (view_left g)) Hw) as [Hl Hr].
    unfold camera. cbn [view_left set_view]. fold p.
    destruct (int_close (scroll_horizontal p (inject_Z (view_left g)))) as [Hlo Hhi].
    unfold pinned_within_a_pixel. split; lra.
  - reflexivity.
Qed.

Lemma camera_pins_player_within_a_pixel_witness :
  width (Player.sprite (player_sprite first_tick_right)) == 40 /\
  pinned_within_a_pixel (Player.sprite (player_sprite first_tick_right))
                        (inject_Z (view_left (camera first_tick_right))).
Proof.
  split; [reflexivity |].
  exact (proj1 (camera_pins_player_within_a_pixel first_tick_right (Qeq_refl 40))).
Defined.

(** C3, as the spec has it, fails on the first tick of a game with the
    right key held: the player, in the field, has its left edge at 30.5;
    the offset -559.5 is truncated to -559, and the left boundary is 31. *)
Lemma camera_truncation_unpins_player :
  let p := Player.sprite (player_sprite first_tick_right) in
  in_field p /\ left p == 30.5 /\ view_left first_tick_right = (-559)%Z /\
  ~ pinned p (inject_Z (view_left first_tick_right)).
Proof.
  cbn zeta. split; [| split; [| split]].
  - vm_compute. repeat split; discriminate.
  - vm_compute. reflexivity.
  - vm_compute. reflexivity.
  - intros [H _]. vm_compute in H. apply H. reflexivity.
Qed.

(** ** Firing *)

Lemma store_same (i : nat) (s : Sprite) (h : nat -> Sprite) : store i s h i = s.
Proof. unfold store. rewrite Nat.eqb_refl. reflexivity. Qed.

Lemma store_other (i j : nat) (s : Sprite) (h : nat -> Sprite) :
  j <> i -> store i s h j = h j.
Proof.
  intro H. unfold store. destruct (Nat.eqb_spec j i); [contradiction | reflexivity].
Qed.

Lemma fired_change_x_spec (p : Player.t) :
  fired_change_x p ==
  if Player.face_right p
  then Qmax 12 (Qabs (change_x (Player.sprite p)) + 10)
  else - Qmax 12 (Qabs (change_x (Player.sprite p)) + 10).
Proof.
  unfold fired_change_x. destruct (Player.face_right p); cbn [negb]; ring.
Qed.

(** C6. The space key creates one sprite, the last entry of the bullet
    list, at the player's centre, with horizontal velocity
    [max(12, |v| + 10)] for a player of horizontal velocity [v], negated
    when the player faces left; at [v = 8] that is 18 in the facing
    direction. *)
Theorem fire_creates_one_bullet (g : MyGame) :
  let p := player_sprite g in
  let g' := on_key_press SPACE g in
  let bullet := heap g' (next_id g) in
  bullet_sprite_list g' = bullet_sprite_list g ++ [next_id g] /\
  next_id g' = S (next_id g) /\
  (forall i, i <> next_id g -> heap g' i = heap g i) /\
  center_x bullet = center_x (Player.sprite p) /\
  center_y bullet = center_y (Player.sprite p) /\
  change_x bullet ==
    (if Player.face_right p
     then Qmax 12 (Qabs (change_x (Player.sprite p)) + 10)
     else - Qmax 12 (Qabs (change_x (Player.sprite p)) + 10)) /\
  change_x (heap (on_key_press SPACE (moving 8 g)) (next_id g)) ==
    (if Player.face_right p then 18 else - (18)).
Proof.
  cbn zeta. unfold on_key_press, alloc, mutate, append_bullet.
  cbn [heap next_id set_heap set_lists player_sprite bullet_sprite_list
       star_sprite_list enemy_sprite_list moving set_player].
  rewrite !store_same.
  repeat split.
  - intros i Hi. rewrite !store_other by exact Hi. reflexivity.
  - cbn [change_x set_change_x]. apply fired_change_x_spec.
  - cbn [change_x set_change_x]. rewrite fired_change_x_spec.
    cbn [Player.with_sprite Player.sprite Player.face_right change_x set_change_x].
    destruct (Player.face_right (player_sprite g)); reflexivity.
Qed.

Lemma fire_creates_one_bullet_witness :
  bullet_sprite_list (on_key_press SPACE duel) =
  bullet_sprite_list duel ++ [next_id duel].
Proof. apply (fire_creates_one_bullet duel). Defined.

(** ** Bullets *)



Lemma ticks_S (n : nat) : ticks (S n) == ticks n + 1.
Proof.
  unfold ticks. rewrite Nat2Z.inj_succ, <- Z.add_1_r, inject_Z_plus. reflexivity.
Qed.

Lemma ticks_nonneg (n : nat) : 0 <= ticks n.
Proof.
  unfold ticks. change 0 with (inject_Z 0). rewrite <- Zle_Qle. lia.
Qed.

Lemma added_S (n : nat) (c x : Q) : added (S n) c x = added n c x + c.
Proof. reflexivity. Qed.






(** A bullet of velocity 12 reaches the threshold 960 with its 80th update
    and stays; the 81st update removes it. *)
Example bullet_at_threshold_stays :
  let bullet := set_change_x 12 (Bullet.init 35 3) in
  option_map Bullet.distance (updates 80 bullet) = Some (Some 960) /\
  BULLET_MAX_DISTANCE == 960 /\
  updates 81 bullet = None.
Proof. vm_compute. repeat split. Qed.






(** ** Particles *)

Lemma particle_updates_alpha (s : Sprite) (n : nat) :
  match updates n (set_cls ParticleClass s) with
  | Some q => cls q = ParticleClass /\ alpha q = (alpha s - 5 * Z.of_nat n)%Z
  | None => True
  end.
Proof.
  induction n as [| n IH].
  - cbn. split; [reflexivity | lia].
  - cbn [updates]. destruct (updates n (set_cls ParticleClass s)) as [q |]; [| exact I].
    destruct IH as [Hc Ha]. unfold update_method. rewrite Hc.
    unfold Particle.update. cbn [move alpha set_alpha set_center_x set_center_y].
    destruct (alpha q - 5 <=? 0)%Z; [exact I |].
    cbn. split; [exact Hc | lia].
Qed.

Lemma particle_gone_iff (s : Sprite) (n : nat) :
  updates n (set_cls ParticleClass s) = None <->
  (1 <= n)%nat /\ (alpha s - 5 * Z.of_nat n <= 0)%Z.
Proof.
  induction n as [| n IH].
  - cbn. split; [discriminate | lia].
  - pose proof (particle_updates_alpha s n) as F.
    cbn [updates]. destruct (updates n (set_cls ParticleClass s)) as [q |].
    + destruct F as [Hc Ha]. unfold update_method. rewrite Hc.
      unfold Particle.update. cbn [move alpha set_alpha set_center_x set_center_y].
      destruct (Z.leb_spec (alpha q - 5) 0).
      * split; [intros _; lia | reflexivity].
      * split; [discriminate | lia].
    + split; [| reflexivity]. intros _.
      destruct (proj1 IH eq_refl). lia.
Qed.

(** C9. One update of a particle lowers its alpha by 5 and removes the
    particle exactly when the new alpha is at most 0; so a particle is gone
    after [n] updates exactly when [alpha - 5 * n <= 0] with [n >= 1], the
    first such update being the one that removes it, and while it is there
    its alpha is [alpha - 5 * n]. *)
Theorem particle_fades_and_is_removed (s : Sprite) (n : nat) :
  let particle := set_cls ParticleClass s in
  (alpha (fst (Particle.update particle)) = alpha particle - 5 /\
   alpha (fst (Particle.update particle)) < alpha particle /\
   (snd (Particle.update particle) = true <-> alpha particle - 5 <= 0))%Z /\
  (updates n particle = None <->
   (1 <= n)%nat /\ (alpha particle - 5 * Z.of_nat n <= 0)%Z) /\
  (forall q, updates n particle = Some q ->
             alpha q = (alpha particle - 5 * Z.of_nat n)%Z).
Proof.
  cbn zeta. split; [| split].
  - unfold Particle.update.
    cbn [fst snd move alpha set_alpha set_center_x set_center_y set_cls].
    split; [reflexivity | split; [lia | apply Z.leb_le]].
  - cbn [alpha set_cls]. apply particle_gone_iff.
  - intros q Hq. pose proof (particle_updates_alpha s n) as F.
    rewrite Hq in F. cbn [alpha set_cls]. apply F.
Qed.

Lemma particle_fades_and_is_removed_witness :
  updates 51 (set_cls ParticleClass (new_sprite SpriteSolidColor 4 4)) = None.
Proof.
  apply (particle_fades_and_is_removed (new_sprite SpriteSolidColor 4 4) 51).
  split; [lia | vm_compute; discriminate].
Defined.

(** A particle starts opaque, at 255: fifty updates leave it at alpha 5,
    the next one removes it. *)
Example particle_lives_fifty_ticks :
  option_map alpha (updates 50 (Particle.init 4 4)) = Some 5%Z /\
  updates 51 (Particle.init 4 4) = None.
Proof. vm_compute. split; reflexivity. Qed.

(** ** Rendering *)

Section RenderingFacts.

Variable Backend : Type.
Variable call : DrawCall -> Backend -> Backend * option PyException.

(** A run ends with an exception exactly when some call raises it after
    the calls before it have returned; the calls after it are not made. *)
Lemma run_raises (calls : list DrawCall) (b b' : Backend) (e : PyException) :
  run call calls b = (b', Some e) <->
  exists before c after b1,
    calls = before ++ c :: after /\
    run call before b = (b1, None) /\
    call c b1 = (b', Some e).
Proof.
  revert b. induction calls as [| c0 rest IH]; intro b.
  - cbn. split; [discriminate |].
    intros [before [c [after [b1 [E _]]]]]. destruct before; discriminate E.
  - cbn [run]. destruct (call c0 b) as [b0 [e0 |]] eqn:C0.
    + split.
      * intro H. exists [], c0, rest, b. cbn. rewrite C0. repeat split; assumption.
      * intros [before [c [after [b1 [E [R C]]]]]].
        destruct before as [| c1 before]; cbn in E; injection E as <- E.
        -- cbn in R. injection R as <-. rewrite C0 in C. exact C.
        -- cbn in R. rewrite C0 in R. discriminate R.
    + rewrite IH. split.
      * intros [before [c [after [b1 [E [R C]]]]]].
        exists (c0 :: before), c, after, b1. cbn. rewrite C0, E.
        repeat split; assumption.
      * intros [before [c [after [b1 [E [R C]]]]]].
        destruct before as [| c1 before]; cbn in E; injection E as <- E.
        -- cbn in R. injection R as <-. rewrite C0 in C. discriminate C.
        -- cbn in R. rewrite C0 in R.
           exists before, c, after, b1. repeat split; assumption.
Qed.

(** C10, as the code has it. When a call of the render sequence raises an
    exception that is an instance of [Exception], after the calls before
    it have returned, [on_draw] returns, the game is as it was, the
    exception is the one thing added to the log, and the drawing library
    is left as the failing call left it: the rest of the sequence is not
    run.  An exception of another kind is not caught: it leaves
    [on_draw], and nothing is logged. *)
Theorem on_draw_catches_Exception
        (g : MyGame) (b : Backend) (log : list PyException)
        (before after : list DrawCall) (c : DrawCall)
        (b1 b' : Backend) (e : PyException) :
  render_sequence g = before ++ c :: after ->
  run call before b = (b1, None) ->
  call c b1 = (b', Some e) ->
  on_draw call (mkWorld g b log) =
  if isinstance_Exception e
  then (mkWorld g b' (log ++ [e]), Returned)
  else (mkWorld g b' log, Raised e).
Proof.
  intros E R C. unfold on_draw. cbn [game backend stderr].
  assert (H : run call (render_sequence g) b = (b', Some e)).
  { apply run_raises. exists before, c, after, b1. repeat split; assumption. }
  rewrite H. reflexivity.
Qed.

End RenderingFacts.

(** The glow pass is the sixteenth call; it fails, the frame ends there and
    the game goes on. *)
Lemma on_draw_catches_Exception_witness :
  render_sequence start_game =
    firstn 15 (render_sequence start_game) ++
    glow_render :: skipn 16 (render_sequence start_game) /\
  on_draw glow_fails (mkWorld start_game 0%nat []) =
  (mkWorld start_game 16%nat ([] ++ [Exception "GLException"]), Returned).
Proof.
  assert (H1 : render_sequence start_game =
               firstn 15 (render_sequence start_game) ++
               glow_render :: skipn 16 (render_sequence start_game))
    by (vm_compute; reflexivity).
  assert (H2 : run glow_fails (firstn 15 (render_sequence start_game)) 0%nat
               = (15%nat, None))
    by (vm_compute; reflexivity).
  split; [exact H1 |].
  exact (on_draw_catches_Exception nat glow_fails start_game 0%nat []
           _ _ _ _ _ _ H1 H2 eq_refl).
Defined.

(** C10, as the spec has it, fails when the exception is not an instance
    of [Exception]: a keyboard interrupt during the first call leaves
    [on_draw]. *)
Lemma on_draw_lets_KeyboardInterrupt_escape :
  snd (on_draw interrupted (mkWorld start_game tt [])) =
  Raised KeyboardInterrupt.
Proof. vm_compute. reflexivity. Qed.

(** ** Collisions *)

Lemma wfb_wf (g : MyGame) : wfb g = true -> wf g.
Proof.
  unfold wfb, wf. rewrite andb_true_iff, !forallb_forall.
  intros [HE HB]. split.
  - intros i Hi. apply Nat.ltb_lt. apply HE, Hi.
  - intros i Hi. specialize (HB i Hi). apply andb_true_iff in HB.
    destruct HB as [Hlt Hno]. split; [apply Nat.ltb_lt, Hlt |].
    intro Hin. apply negb_true_iff in Hno.
    assert (K : existsb (Nat.eqb i) (enemy_sprite_list g) = true).
    { apply existsb_exists. exists i. split; [exact Hin | apply Nat.eqb_refl]. }
    rewrite K in Hno. discriminate Hno.
Qed.

Lemma remove_id_In (i j : nat) (l : list nat) :
  In j (remove_id i l) <-> In j l /\ j <> i.
Proof.
  unfold remove_id. rewrite filter_In, negb_true_iff, Nat.eqb_neq. reflexivity.
Qed.

Lemma remove_id_absent (i : nat) (l : list nat) :
  ~ In i l -> remove_id i l = l.
Proof.
  intro H. unfold remove_id. induction l as [| j l IH]; [reflexivity |].
  cbn. destruct (Nat.eqb_spec j i) as [-> | Hne].
  - exfalso. apply H. left. reflexivity.
  - cbn. f_equal. apply IH. intro K. apply H. right. exact K.
Qed.

Lemma remove_id_length (i : nat) (l : list nat) :
  In i l -> (List.length (remove_id i l) < List.length l)%nat.
Proof.
  unfold remove_id. induction l as [| j l IH]; [intros [] |].
  intros [-> | H]; cbn.
  - rewrite Nat.eqb_refl. cbn.
    pose proof (filter_length_le (fun j => negb (Nat.eqb j i)) l). lia.
  - specialize (IH H). destruct (negb (Nat.eqb j i)); cbn; lia.
Qed.

Lemma eqb_inject_Z_0 (z : Z) : eqb (inject_Z z) 0 = (z =? 0)%Z.
Proof.
  unfold eqb, Qeq_bool, inject_Z. cbn. rewrite Z.mul_1_r.
  destruct z; reflexivity.
Qed.

Lemma eqb_zero (q : Q) : eqb q 0 = true <-> q == 0.
Proof. unfold eqb. apply Qeq_bool_iff. Qed.

(** The [while] loop, round by round. *)
Lemma reroll_cons (ry rx : Z) (tape : Tape) (particle enemy : nat) (g : MyGame) :
  reroll ((ry, rx) :: tape) particle enemy g =
  if eqb (change_y (heap g particle)) 0 && eqb (change_x (heap g particle)) 0
  then reroll tape particle enemy (place ry rx particle enemy g)
  else Some (g, (ry, rx) :: tape).
Proof. reflexivity. Qed.

Lemma place_spec (ry rx : Z) (particle enemy : nat) (g : MyGame) :
  particle <> enemy ->
  let g' := place ry rx particle enemy g in
  bullet_sprite_list g' = bullet_sprite_list g ++ [particle] /\
  enemy_sprite_list g' = enemy_sprite_list g /\
  next_id g' = next_id g /\
  (forall i, i <> particle -> heap g' i = heap g i) /\
  heap g' particle =
    set_center_y (center_y (heap g enemy))
      (set_center_x (center_x (heap g enemy))
         (set_change_x (inject_Z rx)
            (set_change_y (inject_Z ry) (heap g particle)))).
Proof.
  intros Hne. cbn zeta. unfold place, mutate, append_bullet.
  cbn [heap next_id set_heap set_lists bullet_sprite_list enemy_sprite_list
       star_sprite_list].
  rewrite !store_same.
  assert (Hen : enemy <> particle) by (intro K; apply Hne; symmetry; exact K).
  rewrite !(store_other particle enemy) by exact Hen.
  repeat split.
  intros i Hi. rewrite !store_other by exact Hi. reflexivity.
Qed.

Lemma count_live_cons (r : Z * Z) (tape : Tape) :
  count_live (r :: tape) = ((if live r then 1 else 0) + count_live tape)%nat.
Proof. unfold count_live. cbn. destruct (live r); reflexivity. Qed.

Lemma reroll_stop (tape : Tape) (particle enemy : nat) (g : MyGame) :
  eqb (change_y (heap g particle)) 0 && eqb (change_x (heap g particle)) 0 = false ->
  reroll tape particle enemy g = Some (g, tape).
Proof.
  intro H. destruct tape as [| [ry rx] tape]; cbn [reroll]; rewrite H; reflexivity.
Qed.

(** The [while] loop on a particle whose velocity is zero: it ends at the
    first live pair of the tape, and has appended the particle once per
    pair drawn. *)
Lemma reroll_spec (particle enemy : nat) (tape : Tape) :
  forall g,
    particle <> enemy ->
    change_y (heap g particle) == 0 -> change_x (heap g particle) == 0 ->
    (1 <= count_live tape)%nat ->
    exists g' tape' k,
      reroll tape particle enemy g = Some (g', tape') /\
      bullet_sprite_list g' = bullet_sprite_list g ++ repeat particle (S k) /\
      enemy_sprite_list g' = enemy_sprite_list g /\
      next_id g' = next_id g /\
      (forall i, i <> particle -> heap g' i = heap g i) /\
      cls (heap g' particle) = cls (heap g particle) /\
      center_x (heap g' particle) = center_x (heap g enemy) /\
      center_y (heap g' particle) = center_y (heap g enemy) /\
      ~ (change_x (heap g' particle) == 0 /\ change_y (heap g' particle) == 0) /\
      (count_live tape' + 1 = count_live tape)%nat /\
      (List.length tape' + S k = List.length tape)%nat.
Proof.
  induction tape as [| [ry rx] tape IH]; intros g Hne Hy Hx Hlive.
  - cbn in Hlive. lia.
  - rewrite reroll_cons.
    apply eqb_zero in Hy, Hx. rewrite Hy, Hx. cbn [andb].
    destruct (place_spec ry rx particle enemy g Hne)
      as [PB [PE [PN [Pother Pself]]]].
    set (g1 := place ry rx particle enemy g) in *.
    rewrite count_live_cons in Hlive.
    destruct (live (ry, rx)) eqn:L.
    + (* the pair is live: the next test of the loop fails *)
      assert (Hstop : eqb (change_y (heap g1 particle)) 0 &&
                      eqb (change_x (heap g1 particle)) 0 = false).
      { rewrite Pself. cbn [change_x change_y set_center_x set_center_y
                            set_change_x set_change_y].
        rewrite !eqb_inject_Z_0. unfold live in L. cbn [fst snd] in L.
        apply negb_true_iff in L. exact L. }
      exists g1, tape, 0%nat.
      repeat split; try assumption; try (rewrite Pself; reflexivity).
      * apply reroll_stop. exact Hstop.
      * intros [Kx Ky]. apply eqb_zero in Kx, Ky.
        rewrite Kx, Ky in Hstop. discriminate Hstop.
      * rewrite count_live_cons, L. lia.
      * cbn [List.length]. lia.
    + (* both draws are zero: one more round *)
      assert (Zy : change_y (heap g1 particle) == 0).
      { rewrite Pself. cbn [change_y set_center_x set_center_y set_change_x set_change_y].
        apply eqb_zero. rewrite eqb_inject_Z_0.
        unfold live in L. cbn [fst snd] in L. apply negb_false_iff in L.
        apply andb_true_iff in L. apply L. }
      assert (Zx : change_x (heap g1 particle) == 0).
      { rewrite Pself. cbn [change_x set_center_x set_center_y set_change_x set_change_y].
        apply eqb_zero. rewrite eqb_inject_Z_0.
        unfold live in L. cbn [fst snd] in L. apply negb_false_iff in L.
        apply andb_true_iff in L. apply L. }
      destruct (IH g1 Hne Zy Zx ltac:(lia))
        as [g' [tape' [k [R [B [E [N [O [C [CX [CY [V [CL LEN]]]]]]]]]]]]].
      exists g', tape', (S k).
      assert (Hen : enemy <> particle) by (intro K; apply Hne; symmetry; exact K).
      repeat split.
      * exact R.
      * rewrite B, PB, <- app_assoc. reflexivity.
      * rewrite E. exact PE.
      * rewrite N. exact PN.
      * intros i Hi. rewrite O by exact Hi. apply Pother. exact Hi.
      * rewrite C, Pself. reflexivity.
      * rewrite CX. rewrite Pother by exact Hen. reflexivity.
      * rewrite CY. rewrite Pother by exact Hen. reflexivity.
      * exact V.
      * rewrite count_live_cons, L. lia.
      * cbn [List.length]. lia.
Qed.

Lemma spawn_S (n enemy : nat) (g : MyGame) (tape : Tape) :
  spawn (S n) enemy g tape =
  match reroll tape (next_id g) enemy (snd (alloc (Particle.init 4 4) g)) with
  | None => None
  | Some (g, tape) => spawn n enemy g tape
  end.
Proof. reflexivity. Qed.

(** [n] rounds of [for i in range(n)]: [n] new particles, all placed at
    the enemy, for [n] live pairs of the tape. *)
Lemma spawn_spec (enemy n : nat) :
  forall g tape,
    (enemy < next_id g)%nat -> (n <= count_live tape)%nat ->
    exists g' tape' app,
      spawn n enemy g tape = Some (g', tape') /\
      bullet_sprite_list g' = bullet_sprite_list g ++ app /\
      (forall i, In i app -> (next_id g <= i < next_id g + n)%nat) /\
      enemy_sprite_list g' = enemy_sprite_list g /\
      next_id g' = (next_id g + n)%nat /\
      (forall i, (i < next_id g)%nat -> heap g' i = heap g i) /\
      (forall k, (k < n)%nat -> particle_at g' (heap g enemy) (next_id g + k)) /\
      (count_live tape' + n = count_live tape)%nat /\
      (List.length tape' + List.length app = List.length tape)%nat.
Proof.
  induction n as [| n IH]; intros g tape He Hlive.
  - exists g, tape, []. cbn [spawn]. rewrite app_nil_r.
    split; [reflexivity |]. split; [reflexivity |].
    split; [intros i [] |]. split; [reflexivity |].
    split; [lia |]. split; [reflexivity |].
    split; [intros k Hk; lia |]. cbn [List.length]. lia.
  - rewrite spawn_S.
    set (p := next_id g).
    set (g1 := snd (alloc (Particle.init 4 4) g)).
    assert (H1 : heap g1 p = Particle.init 4 4) by apply store_same.
    assert (O1 : forall i, i <> p -> heap g1 i = heap g i)
      by (intros i Hi; apply store_other; exact Hi).
    assert (Hne : p <> enemy) by (unfold p; lia).
    destruct (reroll_spec p enemy tape g1 Hne) as
        [g2 [tape2 [k [R [B [E [N [O [C [CX [CY [V [CL LEN]]]]]]]]]]]]].
    { rewrite H1. reflexivity. }
    { rewrite H1. reflexivity. }
    { lia. }
    rewrite R.
    assert (N2 : next_id g2 = S p) by (rewrite N; reflexivity).
    destruct (IH g2 tape2) as
        [g' [tape' [app [S' [B' [A' [E' [N' [O' [P' [CL' LEN']]]]]]]]]]].
    { rewrite N2. lia. }
    { lia. }
    assert (He1 : heap g2 enemy = heap g enemy).
    { rewrite O by lia. apply O1. lia. }
    assert (Hp : particle_at g' (heap g enemy) p).
    { unfold particle_at. rewrite O' by lia.
      rewrite C, CX, CY, H1, (O1 enemy) by lia.
      split; [| repeat split; try reflexivity; exact V].
      rewrite B', B. apply in_or_app. left. apply in_or_app. right.
      left. reflexivity. }
    exists g', tape', (repeat p (S k) ++ app).
    split; [exact S' |].
    split; [rewrite B', B, <- app_assoc; reflexivity |].
    split.
    { intros i Hi. apply in_app_or in Hi. destruct Hi as [Hi | Hi].
      - apply repeat_spec in Hi. lia.
      - apply A' in Hi. lia. }
    split; [rewrite E', E; reflexivity |].
    split; [rewrite N', N2; lia |].
    split.
    { intros i Hi. rewrite O' by lia. rewrite O by lia. apply O1. lia. }
    split.
    { intros [| j] Hj.
      - rewrite Nat.add_0_r. exact Hp.
      - replace (p + S j)%nat with (next_id g2 + j)%nat by lia.
        rewrite <- He1. apply P'. lia. }
    split; [lia |].
    rewrite length_app, repeat_length. lia.
Qed.

Lemma filter_twice {A : Type} (f h : A -> bool) (l : list A) :
  filter f (filter h l) = filter (fun x => h x && f x) l.
Proof.
  induction l as [| x l IH]; [reflexivity |].
  cbn. destruct (h x); cbn; [destruct (f x) |]; rewrite IH; reflexivity.
Qed.

Lemma survivors_cons (e : nat) (hits enemies : list nat) :
  survivors hits (remove_id e enemies) = survivors (e :: hits) enemies.
Proof.
  unfold survivors, remove_id. rewrite filter_twice.
  apply filter_ext. intro i. cbn [existsb]. rewrite negb_orb. reflexivity.
Qed.

Lemma survivors_In (hits enemies : list nat) (i : nat) :
  In i (survivors hits enemies) <-> In i enemies /\ ~ In i hits.
Proof.
  unfold survivors. rewrite filter_In, negb_true_iff.
  split; intros [H K]; split; try exact H.
  - intro Hin. assert (E : existsb (Nat.eqb i) hits = true).
    { apply existsb_exists. exists i. split; [exact Hin | apply Nat.eqb_refl]. }
    rewrite E in K. discriminate K.
  - destruct (existsb (Nat.eqb i) hits) eqn:E; [| reflexivity].
    exfalso. apply existsb_exists in E. destruct E as [j [Hj Hij]].
    apply Nat.eqb_eq in Hij. subst j. apply K, Hj.
Qed.

(** A burst stays: later rounds write only objects created later and only
    append to the bullet list. *)
Lemma burst_persists (g g' : MyGame) (e : Sprite) (base : nat) (app : list nat) :
  burst g e base ->
  (base + 10 <= next_id g)%nat ->
  (forall i, (i < next_id g)%nat -> heap g' i = heap g i) ->
  bullet_sprite_list g' = bullet_sprite_list g ++ app ->
  burst g' e base.
Proof.
  intros Hb Hn Hh Hl k Hk. destruct (Hb k Hk) as [Hin Hrest].
  unfold particle_at. rewrite Hh by lia.
  split; [| exact Hrest]. rewrite Hl. apply in_or_app. left. exact Hin.
Qed.

(** [for enemy in enemy_hit_list]: every enemy of the hit list leaves the
    enemy list and gets a burst of ten particles. *)
Lemma destroy_spec (hits : list nat) :
  forall g tape,
    (forall e, In e hits -> (e < next_id g)%nat /\ ~ In e (bullet_sprite_list g)) ->
    (10 * List.length hits <= count_live tape)%nat ->
    exists g' tape' app,
      destroy hits g tape = Some (g', tape') /\
      bullet_sprite_list g' = bullet_sprite_list g ++ app /\
      (forall i, In i app -> (next_id g <= i < next_id g')%nat) /\
      enemy_sprite_list g' = survivors hits (enemy_sprite_list g) /\
      (next_id g <= next_id g')%nat /\
      (forall i, (i < next_id g)%nat -> heap g' i = heap g i) /\
      (forall e, In e hits ->
                 exists base, (next_id g <= base)%nat /\
                              (base + 10 <= next_id g')%nat /\
                              burst g' (heap g e) base) /\
      (count_live tape' + 10 * List.length hits = count_live tape)%nat /\
      (List.length tape' + List.length app = List.length tape)%nat.
Proof.
  induction hits as [| e rest IH]; intros g tape Hhits Hlive.
  - exists g, tape, []. cbn [destroy]. rewrite app_nil_r.
    split; [reflexivity |]. split; [reflexivity |].
    split; [intros i [] |].
    split.
    { unfold survivors. cbn [existsb negb]. symmetry. apply filter_true. }
    split; [lia |]. split; [reflexivity |].
    split; [intros e [] |]. cbn [List.length]. lia.
  - cbn [destroy]. cbn [List.length] in Hlive.
    destruct (Hhits e (or_introl eq_refl)) as [He HeB].
    set (g1 := remove_from_sprite_lists e g).
    assert (B1 : bullet_sprite_list g1 = bullet_sprite_list g)
      by (apply remove_id_absent; exact HeB).
    destruct (spawn_spec e 10 g1 tape He ltac:(lia)) as
        [g2 [tape2 [app2 [S2 [B2 [A2 [E2 [N2 [O2 [P2 [CL2 LEN2]]]]]]]]]]].
    rewrite S2. change (next_id g1) with (next_id g) in *.
    change (heap g1) with (heap g) in *.
    destruct (IH g2 tape2) as
        [g' [tape' [app' [D' [B' [A' [E' [N' [O' [P' [CL' LEN']]]]]]]]]]].
    { intros e' He'. destruct (Hhits e' (or_intror He')) as [Hlt Hno].
      split; [lia |]. rewrite B2, B1. intro Hin.
      apply in_app_or in Hin. destruct Hin as [Hin | Hin]; [exact (Hno Hin) |].
      apply A2 in Hin. lia. }
    { lia. }
    exists g', tape', (app2 ++ app').
    split; [exact D' |].
    split; [rewrite B', B2, B1, <- app_assoc; reflexivity |].
    split.
    { intros i Hi. apply in_app_or in Hi. destruct Hi as [Hi | Hi].
      - apply A2 in Hi. lia.
      - apply A' in Hi. lia. }
    split.
    { rewrite E', E2. apply survivors_cons. }
    split; [lia |].
    split.
    { intros i Hi. rewrite O' by lia. apply O2. exact Hi. }
    split.
    { intros e' [<- | He'].
      - exists (next_id g). split; [lia |]. split; [lia |].
        apply (burst_persists g2 g' (heap g e) (next_id g) app').
        + intros k Hk. apply P2. exact Hk.
        + lia.
        + exact O'.
        + exact B'.
      - destruct (P' e' He') as [base [Hb1 [Hb2 Hb3]]].
        exists base. split; [lia |]. split; [exact Hb2 |].
        rewrite <- (O2 e'); [exact Hb3 |].
        apply (Hhits e' (or_intror He')). }
    cbn [List.length]. split; [lia |].
    rewrite length_app. lia.
Qed.

Lemma filter_disjoint_length {A : Type} (f h : A -> bool) (l : list A) :
  (forall x, In x l -> f x = true -> h x = false) ->
  (List.length (filter f l) + List.length (filter h l) <= List.length l)%nat.
Proof.
  induction l as [| x l IH]; intro H; [cbn; lia |].
  assert (IH' := IH (fun y Hy => H y (or_intror Hy))).
  pose proof (H x (or_introl eq_refl)) as Hx.
  cbn. destruct (f x); [rewrite (Hx eq_refl) |]; destruct (h x); cbn; lia.
Qed.

Lemma survivors_length (f : nat -> bool) (l : list nat) :
  (List.length (survivors (filter f l) l) + List.length (filter f l)
   <= List.length l)%nat.
Proof.
  unfold survivors. apply filter_disjoint_length.
  intros i Hi Hs. apply negb_true_iff in Hs.
  destruct (f i) eqn:F; [| reflexivity].
  assert (K : existsb (Nat.eqb i) (filter f l) = true).
  { apply existsb_exists. exists i. split; [| apply Nat.eqb_refl].
    apply filter_In. split; assumption. }
  rewrite K in Hs. discriminate Hs.
Qed.

Section CollisionFacts.

Variable check_for_collision : Sprite -> Sprite -> bool.

(** The walk over the bullet list from position [i] on: it ends, every
    enemy that an entry met on the way touches has left the enemy list,
    and every enemy that has left got its burst. *)
Lemma collide_from_spec (fuel : nat) :
  forall i g tape,
    wf g ->
    (10 * List.length (enemy_sprite_list g) <= count_live tape)%nat ->
    (List.length (bullet_sprite_list g) - i + List.length tape < fuel)%nat ->
    exists g' tape',
      collide_from check_for_collision fuel i g tape = Some (g', tape') /\
      wf g' /\
      (next_id g <= next_id g')%nat /\
      (forall j, (j < next_id g)%nat -> heap g' j = heap g j) /\
      (exists app, bullet_sprite_list g' = bullet_sprite_list g ++ app) /\
      (forall e, In e (enemy_sprite_list g') -> In e (enemy_sprite_list g)) /\
      (forall j b e,
          (i <= j)%nat -> nth_error (bullet_sprite_list g) j = Some b ->
          In e (enemy_sprite_list g) ->
          check_for_collision (heap g b) (heap g e) = true ->
          ~ In e (enemy_sprite_list g')) /\
      (forall e,
          In e (enemy_sprite_list g) -> ~ In e (enemy_sprite_list g') ->
          exists base, (next_id g <= base)%nat /\
                       (base + 10 <= next_id g')%nat /\
                       burst g' (heap g e) base).
Proof.
  induction fuel as [| fuel IH]; intros i g tape Hwf Hlive Hfuel; [lia |].
  cbn [collide_from].
  destruct (nth_error (bullet_sprite_list g) i) as [b |] eqn:Hi.
  - set (hits := check_for_collision_with_list check_for_collision g b
                   (enemy_sprite_list g)).
    assert (Hhits : forall e, In e hits <->
              In e (enemy_sprite_list g) /\
              check_for_collision (heap g b) (heap g e) = true)
      by (intro e; apply filter_In).
    destruct Hwf as [WE WB].
    destruct (destroy_spec hits g tape) as
        [g1 [tape1 [app1 [D1 [B1 [A1 [E1 [N1 [O1 [P1 [CL1 LEN1]]]]]]]]]]].
    { intros e He. apply Hhits in He. destruct He as [He _].
      split; [apply WE, He |]. intro K. apply (proj2 (WB e K)), He. }
    { pose proof (filter_length_le
                    (fun e => check_for_collision (heap g b) (heap g e))
                    (enemy_sprite_list g)).
      unfold hits, check_for_collision_with_list. lia. }
    rewrite D1.
    assert (Sub1 : forall e, In e (enemy_sprite_list g1) -> In e (enemy_sprite_list g)).
    { intros e He. rewrite E1 in He. apply survivors_In in He. apply He. }
    assert (Hwf1 : wf g1).
    { split.
      - intros e He. apply Sub1, WE in He. lia.
      - intros j Hj. rewrite B1 in Hj. apply in_app_or in Hj.
        destruct Hj as [Hj | Hj].
        + destruct (WB j Hj) as [Hlt Hno]. split; [lia |].
          intro K. apply Hno, Sub1, K.
        + apply A1 in Hj. split; [lia |].
          intro K. apply Sub1, WE in K. lia. }
    assert (Hi' : (i < List.length (bullet_sprite_list g))%nat).
    { apply nth_error_Some. rewrite Hi. discriminate. }
    destruct (IH (S i) g1 tape1 Hwf1) as
        [g' [tape' [C' [Hwf' [N' [O' [[app' B'] [Sub' [Hit' Burst']]]]]]]]].
    { rewrite E1. pose proof (survivors_length
                    (fun e => check_for_collision (heap g b) (heap g e))
                    (enemy_sprite_list g)) as SL.
      unfold hits, check_for_collision_with_list in *. lia. }
    { rewrite B1, length_app. lia. }
    exists g', tape'.
    split; [exact C' |]. split; [exact Hwf' |]. split; [lia |].
    split.
    { intros j Hj. rewrite O' by lia. apply O1, Hj. }
    split.
    { exists (app1 ++ app'). rewrite B', B1, <- app_assoc. reflexivity. }
    split.
    { intros e He. apply Sub1, Sub', He. }
    split.
    { intros j b' e Hj Hb' He Hc.
      destruct (in_dec Nat.eq_dec e (enemy_sprite_list g1)) as [K | K];
        [| intro K'; apply K, Sub', K'].
      destruct (Nat.eq_dec j i) as [-> | Hne].
      - exfalso. rewrite Hi in Hb'. injection Hb' as <-.
        rewrite E1 in K. apply survivors_In in K.
        apply (proj2 K). apply Hhits. split; assumption.
      - apply (Hit' j b' e); try assumption; try lia.
        + rewrite B1. rewrite nth_error_app1; [exact Hb' |].
          apply nth_error_Some. rewrite Hb'. discriminate.
        + apply nth_error_In in Hb'.
          rewrite (O1 b') by (apply WB, Hb').
          rewrite (O1 e) by (apply WE, He). exact Hc. }
    intros e He Hgone.
    destruct (in_dec Nat.eq_dec e (enemy_sprite_list g1)) as [K | K].
    + destruct (Burst' e K Hgone) as [base [Hb1 [Hb2 Hb3]]].
      exists base. split; [lia |]. split; [exact Hb2 |].
      rewrite <- (O1 e) by (apply WE, He). exact Hb3.
    + assert (Hin : In e hits).
      { destruct (in_dec Nat.eq_dec e hits) as [Y | Y]; [exact Y |].
        exfalso. apply K. rewrite E1. apply survivors_In.
        split; assumption. }
      destruct (P1 e Hin) as [base [Hb1 [Hb2 Hb3]]].
      exists base. split; [exact Hb1 |]. split; [lia |].
      apply (burst_persists g1 g' (heap g e) base app'); assumption.
  - exists g, tape.
    split; [reflexivity |]. split; [exact Hwf |]. split; [lia |].
    split; [reflexivity |].
    split; [exists []; rewrite app_nil_r; reflexivity |].
    split; [intros e He; exact He |].
    split.
    + intros j b e Hj Hb. exfalso.
      apply nth_error_None in Hi.
      assert (K : nth_error (bullet_sprite_list g) j = None)
        by (apply nth_error_None; lia).
      rewrite K in Hb. discriminate Hb.
    + intros e He Hno. exfalso. apply Hno, He.
Qed.

End CollisionFacts.

Lemma burst_camera (g : MyGame) (e : Sprite) (base : nat) :
  burst g e base -> burst (camera g) e base.
Proof. intros H k Hk. exact (H k Hk). Qed.

(** C2. The particles of a burst are entries of the bullet list, the one
    list [on_update] walks for collisions.  So in any later tick, an entry
    [p] of the bullet list that is still there after the updates, a
    particle as well as a fired sprite, is tested against the enemies: an
    enemy [e] it touches is no longer in the enemy list after the tick, and
    ten new particles placed at [e], with velocities that are not zero,
    are in the bullet list.  The tape has ten live pairs per enemy. *)
Theorem particle_hits_enemy
        (check_for_collision : Sprite -> Sprite -> bool)
        (g : MyGame) (tape : Tape) (p e : nat) :
  let g1 := update_bullets (physics_step g) in
  wf g1 ->
  (10 * List.length (enemy_sprite_list g1) <= count_live tape)%nat ->
  In p (bullet_sprite_list g1) ->
  In e (enemy_sprite_list g1) ->
  check_for_collision (heap g1 p) (heap g1 e) = true ->
  exists g' tape' base,
    on_update check_for_collision tape g = Some (g', tape') /\
    ~ In e (enemy_sprite_list g') /\
    (next_id g1 <= base)%nat /\
    burst g' (heap g1 e) base.
Proof.
  intros g1 Hwf Hlive Hp He Hc.
  destruct (collide_from_spec check_for_collision
              (S (List.length (bullet_sprite_list g1) + List.length tape))
              0 g1 tape Hwf Hlive ltac:(lia))
    as [g' [tape' [C [_ [_ [_ [_ [_ [Hit Burst]]]]]]]]].
  destruct (In_nth_error _ _ Hp) as [j Hj].
  assert (Hgone : ~ In e (enemy_sprite_list g'))
    by (apply (Hit j p e); try assumption; lia).
  destruct (Burst e He Hgone) as [base [Hb1 [_ Hb3]]].
  exists (camera g'), tape', base.
  unfold on_update. fold g1. unfold collisions. rewrite C.
  split; [reflexivity |]. split; [exact Hgone |]. split; [exact Hb1 |].
  apply burst_camera. exact Hb3.
Qed.

(** Three ticks after the burst of the first enemy, the particle 3 has
    risen to the second enemy, 1: the fourth tick removes that enemy and
    spawns the next burst. *)
Lemma particle_hits_enemy_witness :
  cls (heap (update_bullets (physics_step particles_flying)) 3) = ParticleClass /\
  exists g' tape' base,
    on_update boxes_overlap ten_live particles_flying = Some (g', tape') /\
    ~ In 1%nat (enemy_sprite_list g') /\
    (next_id (update_bullets (physics_step particles_flying)) <= base)%nat /\
    burst g' (heap (update_bullets (physics_step particles_flying)) 1) base.
Proof.
  split; [vm_compute; reflexivity |].
  apply (particle_hits_enemy boxes_overlap particles_flying ten_live 3 1).
  - apply wfb_wf. vm_compute. reflexivity.
  - vm_compute. lia.
  - vm_compute. tauto.
  - vm_compute. tauto.
  - vm_compute. reflexivity.
Defined.

(** C1, on a tape whose first pair is two zeros. The shot of the small game
    touches the first enemy, 0, on the first tick.  The enemy is removed
    and ten particles, 3 to 12, are created, each at the enemy's place with
    a velocity that is not zero; but the first one is appended once per
    round of its [while] loop, so the bullet list gains eleven entries. *)
Theorem burst_appends_particle_twice :
  let g := on_key_press SPACE duel in
  let g1 := update_bullets (physics_step g) in
  let g' := tick zero_first g in
  boxes_overlap (heap g1 2) (heap g1 0) = true /\
  enemy_sprite_list g1 = [0; 1]%nat /\
  enemy_sprite_list g' = [1]%nat /\
  bullet_sprite_list g1 = [2]%nat /\
  bullet_sprite_list g' = [2; 3; 3; 4; 5; 6; 7; 8; 9; 10; 11; 12]%nat /\
  List.length (bullet_sprite_list g') =
    (List.length (bullet_sprite_list g1) + 11)%nat /\
  burst g' (heap g1 0) 3.
Proof.
  cbn zeta.
  split; [vm_compute; reflexivity |].
  split; [vm_compute; reflexivity |].
  split; [vm_compute; reflexivity |].
  split; [vm_compute; reflexivity |].
  split; [vm_compute; reflexivity |].
  split; [vm_compute; reflexivity |].
  intros k Hk.
  assert (K : (k = 0 \/ k = 1 \/ k = 2 \/ k = 3 \/ k = 4 \/ k = 5 \/ k = 6 \/
               k = 7 \/ k = 8 \/ k = 9)%nat) by lia.
  unfold particle_at.
  repeat (destruct K as [-> | K]); try subst k;
    (split; [vm_compute; tauto |];
     split; [vm_compute; reflexivity |];
     split; [vm_compute; reflexivity |];
     split; [vm_compute; reflexivity |];
     intros [Hx Hy]; vm_compute in Hx, Hy; discriminate).
Qed.

(** The same shot on a tape without a pair of zeros: ten entries. *)
Example burst_of_ten_without_reroll :
  bullet_sprite_list (tick ten_live (on_key_press SPACE duel)) =
  [2; 3; 4; 5; 6; 7; 8; 9; 10; 11; 12]%nat.
Proof. vm_compute. reflexivity. Qed.

(** * Further properties of the code *)

(** ** Drag and coasting *)

Lemma Qabs_cases (w : Q) :
  (0 <= w /\ Qabs w == w) \/ (w <= 0 /\ Qabs w == - w).
Proof.
  destruct (Qlt_le_dec w 0) as [H | H].
  - right. split; [lra | apply Qabs_neg; lra].
  - left. split; [exact H | apply Qabs_pos; exact H].
Qed.

(** Splitting on the sign of every number under an absolute value. *)
Ltac split_abs :=
  repeat match goal with
         | |- context [Qabs ?w] =>
             lazymatch goal with
             | K : Qabs w == _ |- _ => fail
             | _ => destruct (Qabs_cases w) as [[? ?] | [? ?]]
             end
         | H : context [Qabs ?w] |- _ =>
             lazymatch goal with
             | K : Qabs w == _ |- _ => fail
             | _ => destruct (Qabs_cases w) as [[? ?] | [? ?]]
             end
         end.

(** The drag in closed form: a component below twice [MOVEMENT_DRAG] in
    size drops to 0, any other loses [MOVEMENT_DRAG] toward 0. *)
Theorem drag_closed_form (v : Q) :
  Player.drag v ==
  if ltb (Qabs v) (2 * MOVEMENT_DRAG) then 0
  else if ltb 0 v then v - MOVEMENT_DRAG else v + MOVEMENT_DRAG.
Proof.
  unfold Player.drag, MOVEMENT_DRAG. split_cmp; split_abs; lra.
Qed.

(** The drag never pushes a component past 0 or away from it. *)
Lemma drag_shrinks (v m : Q) :
  Qabs v <= m ->
  Player.drag v == 0 \/ Qabs (Player.drag v) <= m - MOVEMENT_DRAG.
Proof.
  intro H. rewrite drag_closed_form. unfold MOVEMENT_DRAG in *.
  split_cmp; [left; reflexivity | right | right]; split_abs; lra.
Qed.

Lemma drag_zero (v : Q) : v == 0 -> Player.drag v == 0.
Proof.
  intro H. rewrite drag_closed_form. unfold MOVEMENT_DRAG.
  split_cmp; split_abs; lra.
Qed.

Lemma iter_S {A : Type} (f : A -> A) (n : nat) (x : A) :
  Nat.iter (S n) f x = f (Nat.iter n f x).
Proof. reflexivity. Qed.

Lemma iter_drag_shrinks (n : nat) (v m : Q) :
  Qabs v <= m ->
  Nat.iter n Player.drag v == 0 \/
  Qabs (Nat.iter n Player.drag v) <= m - ticks n * MOVEMENT_DRAG.
Proof.
  intro H. induction n as [| n IH].
  - right. change (Nat.iter 0 Player.drag v) with v. change (ticks 0) with 0. lra.
  - rewrite iter_S. destruct IH as [Z | B].
    + left. apply drag_zero, Z.
    + destruct (drag_shrinks _ _ B) as [Z | B']; [left; exact Z | right].
      rewrite ticks_S. unfold MOVEMENT_DRAG in *. lra.
Qed.

(** Opposite keys cancel: with both keys of an axis held, or neither, the
    keys change nothing of the player. *)
Theorem opposite_keys_cancel (g : MyGame) :
  keys_cancel g -> apply_keys g = player_sprite g.
Proof.
  intros [Hh Hv]. unfold apply_keys. rewrite Hh, Hv.
  destruct (right_pressed g), (down_pressed g); reflexivity.
Qed.

Lemma opposite_keys_cancel_witness :
  keys_cancel (set_pressed true true false false start_game) /\
  apply_keys (set_pressed true true false false start_game) =
  player_sprite (set_pressed true true false false start_game).
Proof.
  assert (H : keys_cancel (set_pressed true true false false start_game))
    by (split; reflexivity).
  split; [exact H |].
  apply (opposite_keys_cancel (set_pressed true true false false start_game) H).
Defined.

Lemma physics_step_keys (g : MyGame) :
  left_pressed (physics_step g) = left_pressed g /\
  right_pressed (physics_step g) = right_pressed g /\
  up_pressed (physics_step g) = up_pressed g /\
  down_pressed (physics_step g) = down_pressed g.
Proof. repeat split. Qed.

Lemma coasting_velocity (n : nat) (g : MyGame) :
  keys_cancel g ->
  keys_cancel (Nat.iter n physics_step g) /\
  change_x (Player.sprite (player_sprite (Nat.iter n physics_step g))) =
    Nat.iter n Player.drag (change_x (Player.sprite (player_sprite g))) /\
  change_y (Player.sprite (player_sprite (Nat.iter n physics_step g))) =
    Nat.iter n Player.drag (change_y (Player.sprite (player_sprite g))).
Proof.
  intro H. induction n as [| n [K [Ex Ey]]].
  - repeat split; apply H.
  - rewrite !iter_S. set (gn := Nat.iter n physics_step g) in *.
    split; [exact K |].
    unfold physics_step. cbn [player_sprite set_player].
    rewrite (opposite_keys_cancel gn K).
    unfold Player.update. cbn [Player.with_sprite Player.sprite].
    destruct (update_sprite_velocity (Player.sprite (player_sprite gn))) as [Ux Uy].
    rewrite Ux, Uy, Ex, Ey. split; reflexivity.
Qed.

(** Coasting: with no effective key held, a player within the speed limits
    is at rest after 125 ticks, and stays at rest. *)
Theorem player_coasts_to_rest (g : MyGame) (n : nat) :
  keys_cancel g ->
  speed_ok (Player.sprite (player_sprite g)) ->
  (125 <= n)%nat ->
  let s := Player.sprite (player_sprite (Nat.iter n physics_step g)) in
  change_x s == 0 /\ change_y s == 0.
Proof.
  intros K [Hx Hy] Hn. cbn zeta.
  destruct (coasting_velocity n g K) as [_ [Ex Ey]]. rewrite Ex, Ey.
  assert (T : 125 <= ticks n).
  { unfold ticks. change 125 with (inject_Z 125). rewrite <- Zle_Qle. lia. }
  unfold MAX_HORIZONTAL_MOVEMENT_SPEED, MAX_VERTICAL_MOVEMENT_SPEED in *.
  split.
  - destruct (iter_drag_shrinks n _ _ Hx) as [Z | B]; [exact Z |].
    unfold MOVEMENT_DRAG in B. split_abs; nra.
  - destruct (iter_drag_shrinks n _ _ Hy) as [Z | B]; [exact Z |].
    unfold MOVEMENT_DRAG in B. split_abs; nra.
Qed.


Lemma player_coasts_to_rest_witness :
  keys_cancel (drifting 10 (-5) start_game) /\
  speed_ok (Player.sprite (player_sprite (drifting 10 (-5) start_game))) /\
  change_x (Player.sprite (player_sprite
              (Nat.iter 125 physics_step (drifting 10 (-5) start_game)))) == 0 /\
  change_y (Player.sprite (player_sprite
              (Nat.iter 125 physics_step (drifting 10 (-5) start_game)))) == 0.
Proof.
  assert (K : keys_cancel (drifting 10 (-5) start_game)) by (split; reflexivity).
  assert (S : speed_ok (Player.sprite (player_sprite (drifting 10 (-5) start_game))))
    by (split; vm_compute; discriminate).
  split; [exact K |]. split; [exact S |].
  exact (player_coasts_to_rest (drifting 10 (-5) start_game) 125 K S (le_n 125)).
Defined.

(** ** The walls *)

Ltac open_edges :=
  unfold in_bounds, in_field, set_left, set_right, set_bottom, set_top,
         left, right, bottom, top,
         PLAYING_FIELD_WIDTH, PLAYING_FIELD_HEIGHT, SCREEN_HEIGHT in *;
  cbn [set_center_x set_center_y set_change_x set_change_y
       center_x center_y width height change_x change_y] in *.

(** The bounds check moves a 40 x 10 player into the allowed box, leaves a
    player that is inside where it is, and so changes nothing when done
    twice. *)
Theorem check_bounds_clamps (s : Sprite) :
  width s == 40 -> height s == 10 ->
  in_bounds (Player.check_bounds s) /\
  (in_bounds s -> Player.check_bounds s = s) /\
  Player.check_bounds (Player.check_bounds s) = Player.check_bounds s.
Proof.
  intros Hw Hh.
  assert (Inside : forall t, in_bounds t -> Player.check_bounds t = t).
  { intros t Ht. unfold Player.check_bounds. open_edges.
    split_cmp; open_edges; try reflexivity; exfalso; no_div; lra. }
  assert (Clamped : in_bounds (Player.check_bounds s)).
  { unfold Player.check_bounds. open_edges.
    split_cmp; open_edges; no_div; repeat split; lra. }
  split; [exact Clamped |]. split; [apply Inside |].
  apply Inside, Clamped.
Qed.

Lemma check_bounds_clamps_witness :
  width (Player.sprite (player_sprite (player_at (-30) 900 start_game))) == 40 /\
  height (Player.sprite (player_sprite (player_at (-30) 900 start_game))) == 10 /\
  in_bounds (Player.check_bounds
               (Player.sprite (player_sprite (player_at (-30) 900 start_game)))).
Proof.
  split; [reflexivity |]. split; [reflexivity |].
  exact (proj1 (check_bounds_clamps
                  (Player.sprite (player_sprite (player_at (-30) 900 start_game)))
                  (Qeq_refl 40) (Qeq_refl 10))).
Defined.

(** A wall stops the player's box but not its velocity: a player carried
    past the left edge of the field is put back with its left edge at 0,
    and its velocity is the dragged one, still leftward when it was at
    least twice [MOVEMENT_DRAG]. *)
Theorem left_wall_keeps_velocity (p : Player.t) :
  width (Player.sprite p) == 40 ->
  left (Player.sprite p) + change_x (Player.sprite p) < 0 ->
  let s := Player.sprite (Player.update p) in
  left s == 0 /\
  change_x s = Player.drag (change_x (Player.sprite p)) /\
  (change_x (Player.sprite p) <= - (2 * MOVEMENT_DRAG) -> change_x s < 0).
Proof.
  intros Hw Hl. cbn zeta. unfold Player.update.
  cbn [Player.with_sprite Player.sprite].
  destruct (update_sprite_velocity (Player.sprite p)) as [Ex _].
  split; [| split; [exact Ex |]].
  - unfold Player.update_sprite, Player.check_bounds. open_edges.
    split_cmp; open_edges; no_div; lra.
  - intro Hv. rewrite Ex, drag_closed_form. unfold MOVEMENT_DRAG in *.
    split_cmp; split_abs; lra.
Qed.

Lemma left_wall_keeps_velocity_witness :
  let p := player_sprite (drifting (-10) 0 (player_at 25 50 start_game)) in
  width (Player.sprite p) == 40 /\
  left (Player.sprite p) + change_x (Player.sprite p) < 0 /\
  left (Player.sprite (Player.update p)) == 0.
Proof.
  cbn zeta.
  split; [reflexivity |]. split; [reflexivity |].
  exact (proj1 (left_wall_keeps_velocity
                  (player_sprite (drifting (-10) 0 (player_at 25 50 start_game)))
                  (Qeq_refl 40) eq_refl)).
Defined.

(** ** The speed of a shot *)

(** A shot flies level, faster than the player by 10 at least: for a
    player within the speed limits its speed is between 12 and 20. *)
Theorem shot_speed (g : MyGame) :
  speed_ok (Player.sprite (player_sprite g)) ->
  let shot := heap (on_key_press SPACE g) (next_id g) in
  let v := change_x (Player.sprite (player_sprite g)) in
  change_y shot == 0 /\
  Qabs v + 10 <= Qabs (change_x shot) /\
  12 <= Qabs (change_x shot) /\ Qabs (change_x shot) <= 20 /\
  (0 < change_x shot <-> Player.face_right (player_sprite g) = true).
Proof.
  intros [Hx _]. cbn zeta. unfold on_key_press, alloc, mutate, append_bullet.
  cbn [heap next_id set_heap set_lists player_sprite].
  rewrite !store_same.
  cbn [change_x change_y set_change_x set_center_x set_center_y new_sprite].
  split; [reflexivity |].
  pose proof (fired_change_x_spec (player_sprite g)) as E.
  set (f := fired_change_x (player_sprite g)) in *.
  set (v := change_x (Player.sprite (player_sprite g))) in *.
  pose proof (Q.le_max_l 12 (Qabs v + 10)) as M1.
  pose proof (Q.le_max_r 12 (Qabs v + 10)) as M2.
  assert (M3 : Qmax 12 (Qabs v + 10) <= 20).
  { apply Q.max_lub; unfold MAX_HORIZONTAL_MOVEMENT_SPEED in Hx; lra. }
  set (m := Qmax 12 (Qabs v + 10)) in *.
  destruct (Player.face_right (player_sprite g)).
  - assert (A : Qabs f == m) by (rewrite E; apply Qabs_pos; lra).
    rewrite A. repeat split; try lra; try (intros; lra).
  - assert (A : Qabs f == m).
    { rewrite E, Qabs_opp. apply Qabs_pos. lra. }
    rewrite A. repeat split; try lra; try discriminate; try (intros; exfalso; lra).
Qed.

Lemma shot_speed_witness :
  speed_ok (Player.sprite (player_sprite (drifting 8 0 start_game))) /\
  change_y (heap (on_key_press SPACE (drifting 8 0 start_game))
                 (next_id (drifting 8 0 start_game))) == 0.
Proof.
  assert (S : speed_ok (Player.sprite (player_sprite (drifting 8 0 start_game))))
    by (split; vm_compute; discriminate).
  split; [exact S |].
  exact (proj1 (shot_speed (drifting 8 0 start_game) S)).
Defined.

(** ** Truncation *)

Lemma int_inject_Z (z : Z) : int (inject_Z z) = z.
Proof. unfold int, inject_Z; simpl. apply Z.quot_1_r. Qed.

Lemma inject_Z_plus_1 (z : Z) : inject_Z z + 1 == inject_Z (z + 1).
Proof. rewrite inject_Z_plus. reflexivity. Qed.

Lemma inject_Z_minus_1 (z : Z) : inject_Z z - 1 == inject_Z (z - 1).
Proof. unfold Z.sub. rewrite inject_Z_plus. reflexivity. Qed.

(** Truncation rounds toward zero. *)
Lemma int_toward_zero (x : Q) :
  (0 <= x -> inject_Z (int x) <= x /\ x < inject_Z (int x) + 1) /\
  (x <= 0 -> x <= inject_Z (int x) /\ inject_Z (int x) - 1 < x).
Proof.
  destruct x as [n d]. unfold int; simpl Qnum; simpl Qden.
  pose proof (Z.quot_rem' n (Zpos d)) as E.
  unfold Qle, Qlt, Qminus, Qplus, Qopp, inject_Z; simpl.
  rewrite !Z.mul_1_r, ?Pos.mul_1_r.
  split; intro H.
  - pose proof (Z.rem_bound_pos n (Zpos d) ltac:(lia) ltac:(lia)) as B. nia.
  - pose proof (Z.rem_bound_pos (- n) (Zpos d) ltac:(lia) ltac:(lia)) as B.
    rewrite Z.rem_opp_l' in B. nia.
Qed.

(** An integer between two integers stays there when truncated. *)
Lemma int_between (x : Q) (a b : Z) :
  inject_Z a <= x -> x <= inject_Z b -> (a <= int x <= b)%Z.
Proof.
  intros Ha Hb. destruct (int_close x) as [Hlo Hhi].
  split.
  - assert (K : inject_Z (a - 1) < inject_Z (int x))
      by (rewrite <- inject_Z_minus_1; lra).
    rewrite <- Zlt_Qlt in K. lia.
  - assert (K : inject_Z (int x) < inject_Z (b + 1))
      by (rewrite <- inject_Z_plus_1; lra).
    rewrite <- Zlt_Qlt in K. lia.
Qed.

(** Truncation does not tell equal numbers apart. *)
Lemma int_Qeq (x y : Q) : x == y -> int x = int y.
Proof.
  intro E.
  destruct (int_toward_zero x) as [Px Nx], (int_toward_zero y) as [Py Ny].
  assert (L : forall a b : Z, inject_Z a < inject_Z b + 1 -> (a <= b)%Z).
  { intros a b K. rewrite inject_Z_plus_1, <- Zlt_Qlt in K. lia. }
  destruct (Qlt_le_dec x 0) as [H | H].
  - destruct (Nx ltac:(lra)), (Ny ltac:(lra)).
    apply Z.le_antisymm; apply L; lra.
  - destruct (Px H), (Py ltac:(lra)).
    apply Z.le_antisymm; apply L; lra.
Qed.

(** ** The camera, further *)

Lemma scroll_horizontal_cases (p : Sprite) (v : Q) :
  scroll_horizontal p v = v \/
  scroll_horizontal p v == left p - VIEWPORT_MARGIN \/
  scroll_horizontal p v == right p - (SCREEN_WIDTH - VIEWPORT_MARGIN).
Proof.
  unfold scroll_horizontal, VIEWPORT_MARGIN, SCREEN_WIDTH.
  split_cmp;
    first [ left; reflexivity
          | right; left; no_div; lra
          | right; right; no_div; lra ].
Qed.

(** The correction is stable: run again on its own result it changes
    nothing, so a player that does not move does not make the view move. *)
Theorem camera_idempotent (g : MyGame) :
  width (Player.sprite (player_sprite g)) == 40 ->
  camera (camera g) = camera g.
Proof.
  intro Hw. unfold camera.
  cbn [player_sprite view_left set_view heap next_id star_sprite_list
       enemy_sprite_list bullet_sprite_list left_pressed right_pressed
       up_pressed down_pressed].
  set (p := Player.sprite (player_sprite g)) in *.
  set (v := scroll_horizontal p (inject_Z (view_left g))).
  assert (K : int (scroll_horizontal p (inject_Z (int v))) = int v);
    [| unfold set_view; cbn; rewrite K; reflexivity].
  destruct (scroll_horizontal_pins p (inject_Z (view_left g)) Hw) as [Pl Pr].
  fold v in Pl, Pr.
  destruct (scroll_horizontal_cases p (inject_Z (view_left g))) as [C | C];
    fold v in C.
  - rewrite C, int_inject_Z. fold v. rewrite C. apply int_inject_Z.
  - destruct (int_toward_zero v) as [Pv Nv].
    assert (R : scroll_horizontal p (inject_Z (int v)) = inject_Z (int v) \/
                scroll_horizontal p (inject_Z (int v)) == v).
    { clearbody v. unfold scroll_horizontal, pinned, left, right,
        VIEWPORT_MARGIN, SCREEN_WIDTH in *.
      destruct (Qlt_le_dec v 0) as [Hn | Hp];
        [destruct (Nv ltac:(lra)) | destruct (Pv Hp)];
        destruct C as [C | C];
        split_cmp; first [left; reflexivity | right; no_div; lra | exfalso; no_div; lra]. }
    destruct R as [R | R].
    + rewrite R. apply int_inject_Z.
    + apply int_Qeq, R.
Qed.

Lemma camera_idempotent_witness :
  width (Player.sprite (player_sprite first_tick_right)) == 40 /\
  camera (camera first_tick_right) = camera first_tick_right.
Proof.
  split; [reflexivity |].
  exact (camera_idempotent first_tick_right (Qeq_refl 40)).
Defined.

(** Whatever the offsets were, after the correction for a player in the
    field they are in a fixed range: the view reaches at most 650 beyond
    either end of the field, and never below -10. *)
Theorem camera_offsets_in_range (g : MyGame) :
  width (Player.sprite (player_sprite g)) == 40 ->
  in_field (Player.sprite (player_sprite g)) ->
  (-650 <= view_left (camera g) <= 4370)%Z /\
  (-10 <= view_bottom (camera g) <= 290)%Z.
Proof.
  intros Hw [F1 [F2 [F3 F4]]]. unfold camera. cbn [view_left view_bottom set_view].
  set (p := Player.sprite (player_sprite g)) in *.
  split.
  - destruct (scroll_horizontal_pins p (inject_Z (view_left g)) Hw) as [Pl Pr].
    set (v := scroll_horizontal p (inject_Z (view_left g))) in *.
    unfold left, right, VIEWPORT_MARGIN, SCREEN_WIDTH, PLAYING_FIELD_WIDTH in *.
    assert (A : -650 <= v) by (no_div; lra).
    assert (B : v <= 4370) by (no_div; lra).
    apply int_between; [exact A | exact B].
  - set (v := scroll_vertical p).
    assert (A : -10 <= v /\ v <= 290).
    { unfold v, scroll_vertical, top, DEFAULT_BOTTOM_VIEWPORT, MINIMAP_HEIGHT,
        SCREEN_HEIGHT, TOP_VIEWPORT_MARGIN, PLAYING_FIELD_HEIGHT in *.
      split_cmp; no_div; split; lra. }
    apply int_between; [exact (proj1 A) | exact (proj2 A)].
Qed.

Lemma camera_offsets_in_range_witness :
  width (Player.sprite (player_sprite start_game)) == 40 /\
  in_field (Player.sprite (player_sprite start_game)) /\
  (-650 <= view_left (camera start_game) <= 4370)%Z.
Proof.
  assert (F : in_field (Player.sprite (player_sprite start_game)))
    by (vm_compute; repeat split; discriminate).
  split; [reflexivity |]. split; [exact F |].
  exact (proj1 (camera_offsets_in_range start_game (Qeq_refl 40) F)).
Defined.

(** The vertical offset depends on the player alone: it is the default
    -10 exactly while the player's top is at most 500, never below that,
    and the player's top stays less than 511 above it. *)
Theorem camera_follows_top (g : MyGame) :
  let p := Player.sprite (player_sprite g) in
  let vb := view_bottom (camera g) in
  (-10 <= vb)%Z /\
  (vb = (-10)%Z <-> top p <= 500) /\
  top p < inject_Z vb + 511.
Proof.
  cbn zeta. unfold camera. cbn [view_bottom set_view].
  set (p := Player.sprite (player_sprite g)).
  set (v := scroll_vertical p).
  assert (V : (top p <= 500 /\ v = -10) \/ (500 < top p /\ v == top p - 510)).
  { unfold v, scroll_vertical, DEFAULT_BOTTOM_VIEWPORT, MINIMAP_HEIGHT,
      SCREEN_HEIGHT, TOP_VIEWPORT_MARGIN.
    split_cmp; [right | left]; split; try reflexivity; no_div; lra. }
  destruct V as [[Ht ->] | [Ht Hv]].
  - change (int (-10)) with (-10)%Z. split; [lia |].
    split; [split; [intros _; exact Ht | reflexivity] |].
    change (inject_Z (-10)) with (-10). lra.
  - destruct (int_close v) as [Hlo Hhi].
    destruct (int_toward_zero v) as [Pv Nv].
    assert (L : (-10 < int v)%Z).
    { assert (K : inject_Z (-10) < inject_Z (int v)).
      { change (inject_Z (-10)) with (-10).
        destruct (Qlt_le_dec v 0) as [Hn | Hp];
          [destruct (Nv ltac:(lra)) | destruct (Pv Hp)]; lra. }
      rewrite <- Zlt_Qlt in K. exact K. }
    split; [lia |]. split; [| lra].
    split; [intro E; lia | intro K; exfalso; lra].
Qed.

(** ** The key latch *)

(** A key-down followed by the key-up of the same direction key leaves the
    game as the key-up alone does, and as it was if the key was not held;
    in between the key is held.  The space key and the other keys have no
    latch: their key-up does nothing. *)
Theorem key_up_undoes_key_down (key : Key) (g : MyGame) :
  on_key_release key (on_key_press key g) =
    (if is_direction key then on_key_release key g else on_key_press key g) /\
  held key (on_key_press key g) = is_direction key /\
  held key (on_key_release key g) = false /\
  (held key g = false -> on_key_release key g = g).
Proof.
  destruct g, key; cbn; repeat split; try reflexivity;
    intro H; cbn in H; rewrite H; reflexivity.
Qed.

Lemma key_up_undoes_key_down_witness :
  held LEFT start_game = false /\
  on_key_release LEFT start_game = start_game.
Proof.
  split; [reflexivity |].
  exact (proj2 (proj2 (proj2 (key_up_undoes_key_down LEFT start_game))) eq_refl).
Defined.

(** ** The collision walk, further *)

Lemma same_controls_refl (g : MyGame) : same_controls g g.
Proof. repeat split. Qed.

Lemma same_controls_trans (g1 g2 g3 : MyGame) :
  same_controls g1 g2 -> same_controls g2 g3 -> same_controls g1 g3.
Proof.
  unfold same_controls.
  intros [A1 [A2 [A3 [A4 [A5 [A6 A7]]]]]] [B1 [B2 [B3 [B4 [B5 [B6 B7]]]]]].
  repeat split; congruence.
Qed.

Lemma reroll_frame (particle enemy : nat) (tape : Tape) :
  forall g g' tape',
    reroll tape particle enemy g = Some (g', tape') ->
    next_id g' = next_id g /\ same_controls g g'.
Proof.
  induction tape as [| [ry rx] tape IH]; intros g g' tape' H.
  - cbn [reroll] in H.
    destruct (eqb (change_y (heap g particle)) 0 &&
              eqb (change_x (heap g particle)) 0); [discriminate H |].
    injection H as <- <-. split; [reflexivity | apply same_controls_refl].
  - rewrite reroll_cons in H.
    destruct (eqb (change_y (heap g particle)) 0 &&
              eqb (change_x (heap g particle)) 0).
    + destruct (IH _ _ _ H) as [N C]. split; [rewrite N; reflexivity |].
      apply (same_controls_trans g (place ry rx particle enemy g) g');
        [repeat split | exact C].
    + injection H as <- <-. split; [reflexivity | apply same_controls_refl].
Qed.

Lemma spawn_frame (enemy n : nat) :
  forall g tape g' tape',
    spawn n enemy g tape = Some (g', tape') ->
    next_id g' = (next_id g + n)%nat /\ same_controls g g'.
Proof.
  induction n as [| n IH]; intros g tape g' tape' H.
  - cbn [spawn] in H. injection H as <- <-.
    split; [lia | apply same_controls_refl].
  - rewrite spawn_S in H.
    destruct (reroll tape (next_id g) enemy (snd (alloc (Particle.init 4 4) g)))
      as [[g1 tape1] |] eqn:R; [| discriminate H].
    destruct (reroll_frame _ _ _ _ _ _ R) as [N1 C1].
    destruct (IH _ _ _ _ H) as [N2 C2].
    split; [rewrite N2, N1; cbn; lia |].
    apply (same_controls_trans g (snd (alloc (Particle.init 4 4) g)) g');
      [repeat split |].
    apply (same_controls_trans _ g1 g'); assumption.
Qed.

Lemma destroy_frame (hits : list nat) :
  forall g tape g' tape',
    destroy hits g tape = Some (g', tape') ->
    next_id g' = (next_id g + 10 * List.length hits)%nat /\ same_controls g g'.
Proof.
  induction hits as [| e rest IH]; intros g tape g' tape' H.
  - cbn [destroy] in H. injection H as <- <-.
    split; [cbn; lia | apply same_controls_refl].
  - cbn [destroy] in H.
    destruct (spawn 10 e (remove_from_sprite_lists e g) tape)
      as [[g1 tape1] |] eqn:S1; [| discriminate H].
    destruct (spawn_frame _ _ _ _ _ _ S1) as [N1 C1].
    destruct (IH _ _ _ _ H) as [N2 C2].
    split; [rewrite N2, N1; cbn [List.length next_id remove_from_sprite_lists set_lists]; lia |].
    apply (same_controls_trans g (remove_from_sprite_lists e g) g');
      [repeat split |].
    apply (same_controls_trans _ g1 g'); assumption.
Qed.

Lemma filter_split_length {A : Type} (f : A -> bool) (l : list A) :
  (List.length (filter f l) + List.length (filter (fun x => negb (f x)) l)
   = List.length l)%nat.
Proof.
  induction l as [| x l IH]; [reflexivity |].
  cbn. destruct (f x); cbn; lia.
Qed.

(** The survivors of a hit list drawn from the enemy list by a test are
    the enemies that fail the test. *)
Lemma survivors_of_filter (f : nat -> bool) (l : list nat) :
  survivors (filter f l) l = filter (fun i => negb (f i)) l.
Proof.
  unfold survivors. apply filter_ext_in. intros i Hi. f_equal.
  destruct (f i) eqn:F.
  - apply existsb_exists. exists i. split; [| apply Nat.eqb_refl].
    apply filter_In. split; assumption.
  - destruct (existsb (Nat.eqb i) (filter f l)) eqn:E; [| reflexivity].
    apply existsb_exists in E. destruct E as [j [Hj Hij]].
    apply Nat.eqb_eq in Hij. subst j. apply filter_In in Hj.
    rewrite F in Hj. destruct Hj as [_ K]. discriminate K.
Qed.

Section CollisionCounts.

Variable check_for_collision : Sprite -> Sprite -> bool.

(** The walk, counted: ten new objects and ten live pairs per enemy
  removed, and one entry of the bullet list per pair drawn. *)
Lemma collide_from_counts (fuel : nat) :
forall i g tape g' tape',
  wf g ->
  (10 * List.length (enemy_sprite_list g) <= count_live tape)%nat ->
  collide_from check_for_collision fuel i g tape = Some (g', tape') ->
  wf g' /\
  (List.length (enemy_sprite_list g') <= List.length (enemy_sprite_list g))%nat /\
  (next_id g' + 10 * List.length (enemy_sprite_list g') =
   next_id g + 10 * List.length (enemy_sprite_list g))%nat /\
  (count_live tape + 10 * List.length (enemy_sprite_list g') =
   count_live tape' + 10 * List.length (enemy_sprite_list g))%nat /\
  (List.length (bullet_sprite_list g') + List.length tape' =
   List.length (bullet_sprite_list g) + List.length tape)%nat /\
  same_controls g g' /\
  (forall j, In j (bullet_sprite_list g') ->
             In j (bullet_sprite_list g) \/ (next_id g <= j)%nat).
Proof.
induction fuel as [| fuel IH]; intros i g tape g' tape' Hwf Hlive H;
  [discriminate H |].
cbn [collide_from] in H.
destruct (nth_error (bullet_sprite_list g) i) as [b |] eqn:Hi.
- set (f := fun e => check_for_collision (heap g b) (heap g e)) in *.
  change (check_for_collision_with_list check_for_collision g b
            (enemy_sprite_list g))
    with (filter f (enemy_sprite_list g)) in H.
  set (hits := filter f (enemy_sprite_list g)) in *.
  destruct Hwf as [WE WB].
  pose proof (filter_split_length f (enemy_sprite_list g)) as FL.
  fold hits in FL.
  destruct (destroy_spec hits g tape) as
      [g1 [tape1 [app1 [D1 [B1 [A1 [E1 [N1 [O1 [P1 [CL1 LEN1]]]]]]]]]]].
  { intros e He. apply filter_In in He. destruct He as [He _].
    split; [apply WE, He |]. intro K. apply (proj2 (WB e K)), He. }
  { lia. }
  rewrite D1 in H.
  destruct (destroy_frame _ _ _ _ _ D1) as [NX C1].
  assert (EL : (List.length (enemy_sprite_list g1) + List.length hits
                = List.length (enemy_sprite_list g))%nat).
  { rewrite E1.
    change (survivors hits (enemy_sprite_list g))
      with (survivors (filter f (enemy_sprite_list g)) (enemy_sprite_list g)).
    rewrite survivors_of_filter. lia. }
  assert (Sub1 : forall e, In e (enemy_sprite_list g1) -> In e (enemy_sprite_list g)).
  { intros e He. rewrite E1 in He. apply survivors_In in He. apply He. }
  assert (Hwf1 : wf g1).
  { split.
    - intros e He. apply Sub1, WE in He. lia.
    - intros j Hj. rewrite B1 in Hj. apply in_app_or in Hj.
      destruct Hj as [Hj | Hj].
      + destruct (WB j Hj) as [Hlt Hno]. split; [lia |].
        intro K. apply Hno, Sub1, K.
      + apply A1 in Hj. split; [lia |].
        intro K. apply Sub1, WE in K. lia. }
  destruct (IH (S i) g1 tape1 g' tape' Hwf1 ltac:(lia) H)
    as [W' [L' [N' [CL' [BL' [C' NI']]]]]].
  split; [exact W' |]. split; [lia |]. split; [lia |]. split; [lia |].
  split; [rewrite BL', B1, length_app; lia |].
  split; [apply (same_controls_trans g g1 g'); assumption |].
  intros j Hj. destruct (NI' j Hj) as [K | K]; [| right; lia].
  rewrite B1 in K. apply in_app_or in K.
  destruct K as [K | K]; [left; exact K | right; apply A1 in K; lia].
- injection H as <- <-.
  split; [exact Hwf |]. split; [lia |]. split; [lia |]. split; [lia |].
  split; [lia |]. split; [apply same_controls_refl |].
  intros j Hj. left. exact Hj.
Qed.

(** Without contact the walk draws nothing and changes nothing. *)
Lemma collide_from_no_contact (fuel : nat) :
forall i g tape,
  no_contact check_for_collision g ->
  (List.length (bullet_sprite_list g) - i < fuel)%nat ->
  collide_from check_for_collision fuel i g tape = Some (g, tape).
Proof.
induction fuel as [| fuel IH]; intros i g tape Hno Hfuel; [lia |].
cbn [collide_from].
destruct (nth_error (bullet_sprite_list g) i) as [b |] eqn:Hi; [| reflexivity].
assert (E : check_for_collision_with_list check_for_collision g b
              (enemy_sprite_list g) = []).
{ unfold check_for_collision_with_list.
  assert (G : forall l, (forall e, In e l -> In e (enemy_sprite_list g)) ->
              filter (fun e => check_for_collision (heap g b) (heap g e)) l = []).
  { induction l as [| e l IHl]; intro Hl; [reflexivity |].
    cbn. rewrite (Hno b e (nth_error_In _ _ Hi) (Hl e (or_introl eq_refl))).
    apply IHl. intros e' He'. apply Hl. right. exact He'. }
  apply G. intros e He. exact He. }
rewrite E. cbn [destroy].
apply IH; [exact Hno |].
assert (i < List.length (bullet_sprite_list g))%nat
  by (apply nth_error_Some; rewrite Hi; discriminate).
lia.
Qed.

End CollisionCounts.

(** ** The update of the bullet list *)

Lemma update_entry_facts (g : MyGame) (i : nat) :
  next_id (update_entry g i) = next_id g /\
  same_controls g (update_entry g i) /\
  (forall j, In j (enemy_sprite_list (update_entry g i)) ->
             In j (enemy_sprite_list g)) /\
  (forall j, In j (bullet_sprite_list (update_entry g i)) ->
             In j (bullet_sprite_list g)) /\
  (wf g -> enemy_sprite_list (update_entry g i) = enemy_sprite_list g) /\
  (forall j, j <> i -> heap (update_entry g i) j = heap g j).
Proof.
  unfold update_entry.
  destruct (existsb (Nat.eqb i) (bullet_sprite_list g)) eqn:X.
  - destruct (update_method (heap g i)) as [s removed].
    assert (Hin : In i (bullet_sprite_list g)).
    { apply existsb_exists in X. destruct X as [j [Hj E]].
      apply Nat.eqb_eq in E. subst j. exact Hj. }
    destruct removed;
      cbn [remove_from_sprite_lists mutate set_heap set_lists next_id heap
           enemy_sprite_list bullet_sprite_list];
      (split; [reflexivity |]); (split; [repeat split |]).
    + split; [intros j Hj; apply remove_id_In in Hj; apply Hj |].
      split; [intros j Hj; apply remove_id_In in Hj; apply Hj |].
      split.
      * intros [_ WB]. apply remove_id_absent. apply (WB i Hin).
      * intros j Hj. apply store_other, Hj.
    + split; [intros j Hj; exact Hj |].
      split; [intros j Hj; exact Hj |].
      split; [reflexivity |].
      intros j Hj. apply store_other, Hj.
  - split; [reflexivity |]. split; [apply same_controls_refl |].
    repeat split; auto.
Qed.

Lemma update_entry_wf (g : MyGame) (i : nat) : wf g -> wf (update_entry g i).
Proof.
  intros Hwf.
  destruct (update_entry_facts g i) as [N [_ [SE [SB [EE _]]]]].
  destruct Hwf as [WE WB]. split.
  - intros j Hj. rewrite N. apply WE, SE, Hj.
  - intros j Hj. rewrite N. destruct (WB j (SB j Hj)) as [Hlt Hno].
    split; [exact Hlt |]. intro K. apply Hno, SE, K.
Qed.

(** The update of the bullet list creates nothing, adds no entry and
    leaves the enemies, the player, the keys and the view alone. *)
Lemma update_entries_facts (l : list nat) :
  forall g,
    wf g ->
    wf (fold_left update_entry l g) /\
    next_id (fold_left update_entry l g) = next_id g /\
    same_controls g (fold_left update_entry l g) /\
    enemy_sprite_list (fold_left update_entry l g) = enemy_sprite_list g /\
    (forall j, In j (bullet_sprite_list (fold_left update_entry l g)) ->
               In j (bullet_sprite_list g)).
Proof.
  induction l as [| i l IH]; intros g Hwf.
  - cbn. split; [exact Hwf |]. split; [reflexivity |].
    split; [apply same_controls_refl |]. split; [reflexivity | auto].
  - cbn [fold_left].
    destruct (update_entry_facts g i) as [N [C [_ [SB [EE _]]]]].
    destruct (IH (update_entry g i) (update_entry_wf g i Hwf))
      as [W' [N' [C' [E' SB']]]].
    split; [exact W' |]. split; [rewrite N'; exact N |].
    split; [apply (same_controls_trans _ _ _ C C') |].
    split; [rewrite E'; apply EE, Hwf |].
    intros j Hj. apply SB, SB', Hj.
Qed.

(** A plain sprite in the bullet list is still there, and still plain,
    after any entries of the list have been updated. *)
Lemma plain_sprite_stays (b : nat) (l : list nat) :
  forall g,
    In b (bullet_sprite_list g) -> cls (heap g b) = SpriteSolidColor ->
    In b (bullet_sprite_list (fold_left update_entry l g)) /\
    cls (heap (fold_left update_entry l g) b) = SpriteSolidColor.
Proof.
  induction l as [| i l IH]; intros g Hin Hcls; [split; assumption |].
  cbn [fold_left]. apply IH.
  - unfold update_entry.
    destruct (existsb (Nat.eqb i) (bullet_sprite_list g)); [| exact Hin].
    destruct (Nat.eq_dec i b) as [-> | Hne].
    + unfold update_method. rewrite Hcls. exact Hin.
    + destruct (update_method (heap g i)) as [s removed].
      destruct removed; [| exact Hin].
      cbn [remove_from_sprite_lists mutate set_heap set_lists bullet_sprite_list].
      apply remove_id_In. split; [exact Hin | intro K; apply Hne; symmetry; exact K].
  - unfold update_entry.
    destruct (existsb (Nat.eqb i) (bullet_sprite_list g)); [| exact Hcls].
    destruct (Nat.eq_dec i b) as [-> | Hne].
    + unfold update_method. rewrite Hcls.
      cbn [mutate set_heap heap]. rewrite store_same. exact Hcls.
    + destruct (update_method (heap g i)) as [s removed].
      assert (K : b <> i) by (intro K; apply Hne; symmetry; exact K).
      destruct removed;
        cbn [remove_from_sprite_lists mutate set_heap set_lists heap];
        rewrite store_other by exact K; exact Hcls.
Qed.

(** ** The whole tick *)

Section TickFacts.

Variable check_for_collision : Sprite -> Sprite -> bool.

(** A tick completes and keeps the game well formed.  The player comes out
  of the physics step untouched by the rest, the keys stay as they are,
  enemies only leave, and a plain sprite of the bullet list, such as a
  shot, is never removed.  The tape has ten live pairs per enemy. *)
Theorem on_update_completes (g : MyGame) (tape : Tape) :
wf g ->
(10 * List.length (enemy_sprite_list g) <= count_live tape)%nat ->
exists g' tape',
  on_update check_for_collision tape g = Some (g', tape') /\
  wf g' /\
  player_sprite g' = Player.update (apply_keys g) /\
  held UP g' = held UP g /\ held DOWN g' = held DOWN g /\
  held LEFT g' = held LEFT g /\ held RIGHT g' = held RIGHT g /\
  (forall e, In e (enemy_sprite_list g') -> In e (enemy_sprite_list g)) /\
  (forall b, In b (bullet_sprite_list g) ->
             cls (heap g b) = SpriteSolidColor ->
             In b (bullet_sprite_list g') /\
             cls (heap g' b) = SpriteSolidColor).
Proof.
intros Hwf Hlive.
set (g0 := physics_step g).
assert (Hwf0 : wf g0) by exact Hwf.
destruct (update_entries_facts (bullet_sprite_list g0) g0 Hwf0)
  as [W1 [N1 [C1 [E1 SB1]]]].
fold (update_bullets g0) in W1, N1, C1, E1, SB1.
set (g1 := update_bullets g0) in *.
destruct (collide_from_spec check_for_collision
            (S (List.length (bullet_sprite_list g1) + List.length tape))
            0 g1 tape W1) as
    [g' [tape' [C [W' [N' [O' [[app B'] [Sub' [_ _]]]]]]]]].
{ rewrite E1. exact Hlive. }
{ lia. }
destruct (collide_from_counts check_for_collision _ _ _ _ _ _ W1
            ltac:(rewrite E1; exact Hlive) C) as [_ [_ [_ [_ [_ [C2 _]]]]]].
exists (camera g'), tape'.
unfold on_update. fold g0. fold g1. unfold collisions. rewrite C.
pose proof (same_controls_trans _ _ _ C1 C2) as [K1 [K2 [K3 [K4 [K5 _]]]]].
split; [reflexivity |]. split; [exact W' |].
cbn [camera player_sprite set_view held up_pressed down_pressed
     left_pressed right_pressed enemy_sprite_list bullet_sprite_list heap].
split; [rewrite K1; reflexivity |].
split; [rewrite K4; reflexivity |]. split; [rewrite K5; reflexivity |].
split; [rewrite K2; reflexivity |]. split; [rewrite K3; reflexivity |].
split.
{ intros e He. apply Sub' in He. rewrite E1 in He. exact He. }
intros b Hb Hcls.
destruct (plain_sprite_stays b (bullet_sprite_list g0) g0 Hb Hcls) as [S1 S2].
fold (update_bullets g0) in S1, S2. fold g1 in S1, S2.
split.
- rewrite B'. apply in_or_app. left. exact S1.
- rewrite O'; [exact S2 |]. apply (proj2 W1 b S1).
Qed.

(** The count of a tick: ten new objects and ten live pairs per enemy
  removed, and one new entry of the bullet list per pair drawn, live or
  not, on top of the entries that the updates have left. *)
Theorem on_update_counts (g g' : MyGame) (tape tape' : Tape) :
wf g ->
(10 * List.length (enemy_sprite_list g) <= count_live tape)%nat ->
on_update check_for_collision tape g = Some (g', tape') ->
let removed :=
  (List.length (enemy_sprite_list g) - List.length (enemy_sprite_list g'))%nat in
(List.length (enemy_sprite_list g') <= List.length (enemy_sprite_list g))%nat /\
next_id g' = (next_id g + 10 * removed)%nat /\
count_live tape = (count_live tape' + 10 * removed)%nat /\
(List.length (bullet_sprite_list g') + List.length tape' =
 List.length (bullet_sprite_list (update_bullets (physics_step g)))
 + List.length tape)%nat.
Proof.
intros Hwf Hlive H. cbn zeta. unfold on_update in H.
set (g0 := physics_step g) in *.
assert (Hwf0 : wf g0) by exact Hwf.
destruct (update_entries_facts (bullet_sprite_list g0) g0 Hwf0)
  as [W1 [N1 [C1 [E1 SB1]]]].
fold (update_bullets g0) in W1, N1, C1, E1, SB1.
set (g1 := update_bullets g0) in *.
destruct (collisions check_for_collision g1 tape) as [[g2 tape2] |] eqn:C;
  [| discriminate H].
injection H as <- <-.
destruct (collide_from_counts check_for_collision _ _ _ _ _ _ W1
            ltac:(rewrite E1; exact Hlive) C) as [_ [L [N [CL [BL _]]]]].
cbn [camera set_view enemy_sprite_list bullet_sprite_list next_id].
rewrite E1, N1 in *. change (enemy_sprite_list g0) with (enemy_sprite_list g) in *.
change (next_id g0) with (next_id g) in *.
split; [exact L |]. split; [lia |]. split; [lia |]. exact BL.
Qed.

(** A tick without contact draws no random number and is the physics
  step, the updates and the camera, whatever the tape. *)
Theorem on_update_without_contact (g : MyGame) (tape : Tape) :
no_contact check_for_collision (update_bullets (physics_step g)) ->
on_update check_for_collision tape g =
Some (camera (update_bullets (physics_step g)), tape).
Proof.
intro Hno. unfold on_update, collisions.
rewrite (collide_from_no_contact check_for_collision); [reflexivity | exact Hno | lia].
Qed.

End TickFacts.

Lemma on_update_completes_witness :
  wf shot_game /\
  (10 * List.length (enemy_sprite_list shot_game) <= count_live two_bursts)%nat /\
  exists g' tape',
    on_update boxes_overlap two_bursts shot_game = Some (g', tape') /\ wf g'.
Proof.
  assert (W : wf shot_game) by (apply wfb_wf; vm_compute; reflexivity).
  assert (L : (10 * List.length (enemy_sprite_list shot_game)
               <= count_live two_bursts)%nat) by (vm_compute; lia).
  split; [exact W |]. split; [exact L |].
  destruct (on_update_completes boxes_overlap shot_game two_bursts W L)
    as [g' [tape' [H [W' _]]]].
  exists g', tape'. split; [exact H | exact W'].
Defined.

Lemma on_update_counts_witness :
  wf shot_game /\
  on_update boxes_overlap two_bursts shot_game =
    Some (tick two_bursts shot_game, skipn 10 two_bursts) /\
  (List.length (enemy_sprite_list (tick two_bursts shot_game))
   <= List.length (enemy_sprite_list shot_game))%nat.
Proof.
  assert (W : wf shot_game) by (apply wfb_wf; vm_compute; reflexivity).
  assert (L : (10 * List.length (enemy_sprite_list shot_game)
               <= count_live two_bursts)%nat) by (vm_compute; lia).
  assert (E : on_update boxes_overlap two_bursts shot_game =
              Some (tick two_bursts shot_game, skipn 10 two_bursts))
    by (vm_compute; reflexivity).
  split; [exact W |]. split; [exact E |].
  exact (proj1 (on_update_counts boxes_overlap shot_game
                  (tick two_bursts shot_game) two_bursts (skipn 10 two_bursts)
                  W L E)).
Defined.

Lemma no_contactb_no_contact (c : Sprite -> Sprite -> bool) (g : MyGame) :
  no_contactb c g = true -> no_contact c g.
Proof.
  unfold no_contactb, no_contact. intros H b e Hb He.
  rewrite forallb_forall in H. specialize (H b Hb).
  rewrite forallb_forall in H. specialize (H e He).
  apply negb_true_iff in H. exact H.
Qed.

Lemma first_shot_touches_nothing :
  no_contact boxes_overlap (update_bullets (physics_step first_shot)).
Proof. apply no_contactb_no_contact. vm_compute. reflexivity. Qed.

Lemma on_update_without_contact_witness :
  bullet_sprite_list (update_bullets (physics_step first_shot)) = [100%nat] /\
  List.length (enemy_sprite_list (update_bullets (physics_step first_shot))) = 20%nat /\
  no_contact boxes_overlap (update_bullets (physics_step first_shot)) /\
  on_update boxes_overlap [] first_shot =
  Some (camera (update_bullets (physics_step first_shot)), []).
Proof.
  split; [vm_compute; reflexivity |]. split; [vm_compute; reflexivity |].
  split; [exact first_shot_touches_nothing |].
  exact (on_update_without_contact boxes_overlap first_shot []
           first_shot_touches_nothing).
Defined.

(** ** Shots *)

Lemma fire_facts (g : MyGame) :
  bullet_sprite_list (on_key_press SPACE g) = bullet_sprite_list g ++ [next_id g] /\
  enemy_sprite_list (on_key_press SPACE g) = enemy_sprite_list g /\
  next_id (on_key_press SPACE g) = S (next_id g) /\
  same_controls g (on_key_press SPACE g) /\
  cls (heap (on_key_press SPACE g) (next_id g)) = SpriteSolidColor.
Proof.
  unfold on_key_press, alloc, mutate, append_bullet.
  cbn [heap next_id set_heap set_lists player_sprite bullet_sprite_list
       star_sprite_list enemy_sprite_list].
  rewrite !store_same. repeat split.
Qed.

Lemma fire_wf (g : MyGame) : wf g -> wf (on_key_press SPACE g).
Proof.
  intros [WE WB]. destruct (fire_facts g) as [B [E [N _]]].
  split.
  - intros i Hi. rewrite N. rewrite E in Hi. apply WE in Hi. lia.
  - intros i Hi. rewrite N, E. rewrite B in Hi. apply in_app_or in Hi.
    destruct Hi as [Hi | [<- | []]].
    + destruct (WB i Hi). split; [lia | assumption].
    + split; [lia |]. intro K. apply WE in K. lia.
Qed.

(** Nothing limits the fire: [n] presses of the space key in a row put
    [n] new sprites at the end of the bullet list, and the game stays well
    formed, with the enemies and the player as they were. *)
Theorem rapid_fire (n : nat) (g : MyGame) :
  wf g ->
  let g' := Nat.iter n (on_key_press SPACE) g in
  wf g' /\
  bullet_sprite_list g' = bullet_sprite_list g ++ seq (next_id g) n /\
  next_id g' = (next_id g + n)%nat /\
  enemy_sprite_list g' = enemy_sprite_list g /\
  player_sprite g' = player_sprite g.
Proof.
  intro Hwf. cbn zeta. induction n as [| n [W [B [N [E P]]]]].
  - change (Nat.iter 0 (on_key_press SPACE) g) with g. cbn [seq].
    rewrite app_nil_r. split; [exact Hwf |].
    split; [reflexivity |]. split; [lia |]. split; reflexivity.
  - rewrite iter_S. set (gn := Nat.iter n (on_key_press SPACE) g) in *.
    destruct (fire_facts gn) as [B' [E' [N' [C' _]]]].
    split; [apply fire_wf, W |].
    split; [rewrite B', B, N, seq_S, app_assoc; reflexivity |].
    split; [rewrite N', N; lia |].
    split; [rewrite E', E; reflexivity |].
    rewrite (proj1 C'). exact P.
Qed.

Lemma rapid_fire_witness :
  wf duel /\
  bullet_sprite_list (Nat.iter 3 (on_key_press SPACE) duel) =
  bullet_sprite_list duel ++ seq (next_id duel) 3.
Proof.
  assert (W : wf duel) by (apply wfb_wf; vm_compute; reflexivity).
  split; [exact W |].
  exact (proj1 (proj2 (rapid_fire 3 duel W))).
Defined.

Lemma move_n (s : Sprite) : cls (move s) = cls s /\
  change_x (move s) = change_x s /\ change_y (move s) = change_y s /\
  center_x (move s) = center_x s + change_x s /\
  center_y (move s) = center_y s + change_y s.
Proof. repeat split. Qed.

(** A shot is a plain sprite, and the update of a plain sprite only moves
    it: after [n] updates it is still there, plain, with its velocity; its
    centre has had the velocity added [n] times, once per update, and is at
    the height it was fired at, wherever that takes it. *)
Theorem shot_flies_on (g : MyGame) (n : nat) :
  let shot := heap (on_key_press SPACE g) (next_id g) in
  exists s,
    updates n shot = Some s /\
    cls s = SpriteSolidColor /\
    change_x s = change_x shot /\
    center_x s = added n (change_x shot) (center_x (Player.sprite (player_sprite g))) /\
    center_y s == center_y (Player.sprite (player_sprite g)).
Proof.
  cbn zeta.
  assert (G : forall s0, cls s0 = SpriteSolidColor -> exists s,
               updates n s0 = Some s /\ cls s = SpriteSolidColor /\
               change_x s = change_x s0 /\ change_y s = change_y s0 /\
               center_x s = added n (change_x s0) (center_x s0) /\
               center_y s = added n (change_y s0) (center_y s0)).
  { intros s0 H0. induction n as [| n [s [U [C [Vx [Vy [Px Py]]]]]]].
    - exists s0. repeat split; assumption.
    - exists (move s). cbn [updates]. rewrite U. unfold update_method. rewrite C.
      destruct (move_n s) as [M1 [M2 [M3 [M4 M5]]]].
      split; [reflexivity |]. split; [rewrite M1; exact C |].
      split; [rewrite M2; exact Vx |]. split; [rewrite M3; exact Vy |].
      rewrite M4, M5, !added_S, Px, Py, Vx, Vy. split; reflexivity. }
  destruct (fire_facts g) as [_ [_ [_ [_ Hc]]]].
  destruct (G _ Hc) as [s [U [C [Vx [Vy [Px Py]]]]]].
  exists s. split; [exact U |]. split; [exact C |]. split; [exact Vx |].
  revert Px Py. unfold on_key_press, alloc, mutate, append_bullet.
  cbn [heap next_id set_heap set_lists player_sprite].
  rewrite !store_same.
  cbn [center_x center_y change_x change_y set_change_x set_center_x
       set_center_y new_sprite].
  intros Px Py. split; [exact Px |]. rewrite Py.
  clear. induction n as [| n IH]; [reflexivity |].
  rewrite added_S, IH. ring.
Qed.

(** ** setup *)

Section AddSprites.

Variable side : Q.
Variable append : nat -> MyGame -> MyGame.
Hypothesis append_frame : forall i g,
  heap (append i g) = heap g /\ next_id (append i g) = next_id g /\
  same_controls g (append i g) /\
  bullet_sprite_list (append i g) = bullet_sprite_list g.

Lemma add_sprites_S (n : nat) (x y : Z) (tape : Tape) (g : MyGame) :
add_sprites (S n) side append ((x, y) :: tape) g =
add_sprites n side append tape
  (append (next_id g)
     (mutate (next_id g) (set_center_y (inject_Z y))
        (mutate (next_id g) (set_center_x (inject_Z x))
           (snd (alloc (new_sprite SpriteSolidColor side side) g))))).
Proof. reflexivity. Qed.

(** A loop of [setup]: one new sprite per round, placed at the pair of
  draws of the round. *)
Lemma add_sprites_spec (n : nat) :
forall tape g,
  (n <= List.length tape)%nat ->
  exists g',
    add_sprites n side append tape g = Some (g', skipn n tape) /\
    next_id g' = (next_id g + n)%nat /\
    (forall i, (i < next_id g)%nat -> heap g' i = heap g i) /\
    (forall k, (k < n)%nat ->
               heap g' (next_id g + k) = placed side (nth k tape (0, 0)%Z)) /\
    same_controls g g' /\
    bullet_sprite_list g' = bullet_sprite_list g.
Proof.
induction n as [| n IH]; intros tape g Hlen.
- exists g. cbn [add_sprites skipn].
  split; [reflexivity |]. split; [lia |]. split; [reflexivity |].
  split; [intros k Hk; lia |]. split; [apply same_controls_refl | reflexivity].
- destruct tape as [| [x y] tape]; [cbn in Hlen; lia |].
  cbn [List.length] in Hlen. rewrite add_sprites_S.
  set (g0 := mutate (next_id g) (set_center_y (inject_Z y))
               (mutate (next_id g) (set_center_x (inject_Z x))
                  (snd (alloc (new_sprite SpriteSolidColor side side) g)))).
  destruct (append_frame (next_id g) g0) as [AH [AN [AC AB]]].
  set (g1 := append (next_id g) g0) in *.
  assert (H0 : heap g1 (next_id g) = placed side (x, y)).
  { rewrite AH. unfold g0, mutate, alloc.
    cbn [snd heap set_heap next_id]. rewrite !store_same. reflexivity. }
  assert (O0 : forall i, i <> next_id g -> heap g1 i = heap g i).
  { intros i Hi. rewrite AH. unfold g0, mutate, alloc.
    cbn [snd heap set_heap next_id]. rewrite !store_other by exact Hi.
    reflexivity. }
  assert (N0 : next_id g1 = S (next_id g)) by (rewrite AN; reflexivity).
  destruct (IH tape g1 ltac:(lia)) as [g' [A [N [O [P [C B]]]]]].
  exists g'. cbn [skipn].
  split; [exact A |]. split; [rewrite N, N0; lia |].
  split.
  { intros i Hi. rewrite O by lia. apply O0. lia. }
  split.
  { intros [| k] Hk.
    - rewrite Nat.add_0_r, O by lia. exact H0.
    - replace (next_id g + S k)%nat with (next_id g1 + k)%nat by lia.
      rewrite P by lia. reflexivity. }
  split.
  { apply (same_controls_trans g g0 g'); [repeat split |].
    apply (same_controls_trans g0 g1 g'); assumption. }
  rewrite B, AB. reflexivity.
Qed.

End AddSprites.

Lemma append_star_frame (i : nat) (g : MyGame) :
  heap (append_star i g) = heap g /\ next_id (append_star i g) = next_id g /\
  same_controls g (append_star i g) /\
  bullet_sprite_list (append_star i g) = bullet_sprite_list g.
Proof. repeat split. Qed.

Lemma append_enemy_frame (i : nat) (g : MyGame) :
  heap (append_enemy i g) = heap g /\ next_id (append_enemy i g) = next_id g /\
  same_controls g (append_enemy i g) /\
  bullet_sprite_list (append_enemy i g) = bullet_sprite_list g.
Proof. repeat split. Qed.

Lemma add_stars_lists (side : Q) (n : nat) :
  forall tape g g' tape',
    add_sprites n side append_star tape g = Some (g', tape') ->
    star_sprite_list g' = star_sprite_list g ++ seq (next_id g) n /\
    enemy_sprite_list g' = enemy_sprite_list g.
Proof.
  induction n as [| n IH]; intros tape g g' tape' H.
  - cbn in H. injection H as <- <-. cbn. rewrite app_nil_r. split; reflexivity.
  - destruct tape as [| [x y] tape]; [discriminate H |].
    rewrite add_sprites_S in H. destruct (IH _ _ _ _ H) as [S' E'].
    split; [| exact E'].
    rewrite S'. cbn [seq]. cbn. rewrite <- app_assoc. reflexivity.
Qed.

Lemma add_enemies_lists (side : Q) (n : nat) :
  forall tape g g' tape',
    add_sprites n side append_enemy tape g = Some (g', tape') ->
    enemy_sprite_list g' = enemy_sprite_list g ++ seq (next_id g) n /\
    star_sprite_list g' = star_sprite_list g.
Proof.
  induction n as [| n IH]; intros tape g g' tape' H.
  - cbn in H. injection H as <- <-. cbn. rewrite app_nil_r. split; reflexivity.
  - destruct tape as [| [x y] tape]; [discriminate H |].
    rewrite add_sprites_S in H. destruct (IH _ _ _ _ H) as [E' S'].
    split; [| exact S'].
    rewrite E'. cbn [seq]. cbn. rewrite <- app_assoc. reflexivity.
Qed.

(** [setup] on a tape of a hundred pairs or more: the lists are emptied,
    then eighty stars of side 4 and twenty enemies of side 20 are created
    in this order, each where its pair of draws says; the player is at rest
    at (50, 50), facing right; the game is well formed.  The keys held and
    the offsets of the view are not reset. *)
Theorem setup_spec (tape : Tape) (g : MyGame) :
  (100 <= List.length tape)%nat ->
  exists g',
    setup tape g = Some (g', skipn 100 tape) /\
    star_sprite_list g' = seq (next_id g) 80 /\
    enemy_sprite_list g' = seq (next_id g + 80) 20 /\
    bullet_sprite_list g' = [] /\
    next_id g' = (next_id g + 100)%nat /\
    (forall k, (k < 80)%nat ->
               heap g' (next_id g + k) = placed 4 (nth k tape (0, 0)%Z)) /\
    (forall k, (k < 20)%nat ->
               heap g' (next_id g + 80 + k) = placed 20 (nth (80 + k) tape (0, 0)%Z)) /\
    player_sprite g' =
      Player.with_sprite (set_center_y 50)
        (Player.with_sprite (set_center_x 50) Player.init) /\
    wf g' /\
    held UP g' = held UP g /\ held DOWN g' = held DOWN g /\
    held LEFT g' = held LEFT g /\ held RIGHT g' = held RIGHT g /\
    view_left g' = view_left g /\ view_bottom g' = view_bottom g.
Proof.
  intro Hlen. unfold setup.
  set (g0 := set_player
               (Player.with_sprite (set_center_y 50)
                  (Player.with_sprite (set_center_x 50) Player.init))
               (set_lists [] [] [] g)).
  destruct (add_sprites_spec 4 append_star append_star_frame 80 tape g0 ltac:(lia))
    as [g1 [A1 [N1 [O1 [P1 [C1 B1]]]]]].
  rewrite A1.
  destruct (add_stars_lists _ _ _ _ _ _ A1) as [S1 E1].
  assert (Hlen2 : (20 <= List.length (skipn 80 tape))%nat)
    by (rewrite length_skipn; lia).
  destruct (add_sprites_spec 20 append_enemy append_enemy_frame 20
              (skipn 80 tape) g1 Hlen2)
    as [g2 [A2 [N2 [O2 [P2 [C2 B2]]]]]].
  rewrite skipn_skipn in A2. change (20 + 80)%nat with 100%nat in A2.
  destruct (add_enemies_lists _ _ _ _ _ _ A2) as [E2 S2].
  change (next_id g0) with (next_id g) in *.
  exists g2.
  pose proof (same_controls_trans _ _ _ C1 C2) as [K1 [K2 [K3 [K4 [K5 [K6 K7]]]]]].
  split; [exact A2 |].
  split; [rewrite S2, S1; reflexivity |].
  split; [rewrite E2, E1, N1; reflexivity |].
  split; [rewrite B2, B1; reflexivity |].
  split; [rewrite N2, N1; lia |].
  split.
  { intros k Hk. rewrite O2 by lia. apply P1, Hk. }
  split.
  { intros k Hk. rewrite <- N1, P2 by exact Hk. rewrite nth_skipn. reflexivity. }
  split; [rewrite K1; reflexivity |].
  split.
  { split.
    - intros i Hi. rewrite E2, E1, N1 in Hi. cbn [app] in Hi.
      apply in_seq in Hi. rewrite N2, N1. lia.
    - intros i Hi. rewrite B2, B1 in Hi. destruct Hi. }
  cbn [held]. rewrite K2, K3, K4, K5, K6, K7. repeat split.
Qed.

Lemma setup_spec_witness :
  (100 <= List.length demo_tape)%nat /\
  exists g', setup demo_tape init = Some (g', skipn 100 demo_tape) /\ wf g'.
Proof.
  assert (L : (100 <= List.length demo_tape)%nat) by (vm_compute; lia).
  split; [exact L |].
  destruct (setup_spec demo_tape init L) as [g' [H [_ [_ [_ [_ [_ [_ [_ [W _]]]]]]]]]].
  exists g'. split; [exact H | exact W].
Defined.

(** ** on_draw, further *)

Lemma run_traced_raise (raises : DrawCall -> option PyException)
      (before after : list DrawCall) (c : DrawCall) (e : PyException)
      (trace : list DrawCall) :
  (forall c', In c' before -> raises c' = None) ->
  raises c = Some e ->
  run (traced raises) (before ++ c :: after) trace
  = (trace ++ before ++ [c], Some e).
Proof.
  revert trace. induction before as [| c0 before IH]; intros trace H He.
  - cbn [app run traced]. rewrite He. reflexivity.
  - cbn [app run traced]. rewrite (H c0 (or_introl eq_refl)).
    rewrite IH; [| intros c' Hc'; apply H; right; exact Hc' | exact He].
    rewrite <- app_assoc. reflexivity.
Qed.

(** When the glow pass fails and no other call does, the frame ends with
    it: blending has been switched off and is not switched on again, and
    the fore sprites, the ground and the minimap are not drawn.  The
    failure is logged if it is an [Exception]. *)
Theorem glow_failure_leaves_blending_off
        (raises : DrawCall -> option PyException)
        (g : MyGame) (log : list PyException) (e : PyException) :
  raises glow_render = Some e ->
  (forall c, c <> glow_render -> raises c = None) ->
  let r := on_draw (traced raises) (mkWorld g [] log) in
  backend (fst r) = firstn 16 (render_sequence g) /\
  In glDisable_BLEND (backend (fst r)) /\
  ~ In glEnable_BLEND (backend (fst r)) /\
  ~ In mini_map_quad_render (backend (fst r)) /\
  game (fst r) = g /\
  (isinstance_Exception e = true ->
   snd r = Returned /\ stderr (fst r) = log ++ [e]).
Proof.
  intros He Hother. cbn zeta.
  assert (R : run (traced raises) (render_sequence g) []
              = (firstn 16 (render_sequence g), Some e)).
  { change (render_sequence g)
      with (firstn 15 (render_sequence g) ++ glow_render :: skipn 16 (render_sequence g))
      at 1.
    rewrite (run_traced_raise raises _ _ glow_render e []); [reflexivity | | exact He].
    intros c Hc. apply Hother. intro K. subst c.
    cbn [In firstn render_sequence] in Hc.
    repeat (destruct Hc as [Hc | Hc]; [discriminate Hc |]). exact Hc. }
  unfold on_draw. cbn [game backend stderr]. rewrite R.
  assert (T : In glDisable_BLEND (firstn 16 (render_sequence g)) /\
              ~ In glEnable_BLEND (firstn 16 (render_sequence g)) /\
              ~ In mini_map_quad_render (firstn 16 (render_sequence g))).
  { cbn [In firstn render_sequence]. split; [| split].
    - repeat (first [left; reflexivity | right]).
    - intro Hc. repeat (destruct Hc as [Hc | Hc]; [discriminate Hc |]). exact Hc.
    - intro Hc. repeat (destruct Hc as [Hc | Hc]; [discriminate Hc |]). exact Hc. }
  destruct T as [T1 [T2 T3]].
  destruct (isinstance_Exception e); cbn [fst snd backend game stderr];
    (split; [reflexivity |]); (split; [exact T1 |]); (split; [exact T2 |]);
    (split; [exact T3 |]); (split; [reflexivity |]).
  - intros _. split; reflexivity.
  - intro K. discriminate K.
Qed.

Lemma glow_failure_leaves_blending_off_witness :
  glow_raises (Exception "GLException") glow_render = Some (Exception "GLException") /\
  ~ In glEnable_BLEND
      (backend (fst (on_draw (traced (glow_raises (Exception "GLException")))
                             (mkWorld start_game [] [])))).
Proof.
  split; [reflexivity |].
  refine (proj1 (proj2 (proj2
            (glow_failure_leaves_blending_off
               (glow_raises (Exception "GLException")) start_game []
               (Exception "GLException") eq_refl _)))).
  intros c Hc. destruct c; try reflexivity. exfalso. apply Hc. reflexivity.
Defined.

(** The rectangle drawn last, over the minimap, shows the view: it lies
    between the sides of the screen exactly when the view lies between the
    ends of the playing field, its left edge being right of the screen's
    left exactly when the view's left offset is not negative, and its right
    edge left of the screen's right exactly when the view's right end is
    not beyond the field's width. *)
Theorem minimap_indicator (g : MyGame) :
  let vl := inject_Z (view_left g) in
  exists x y w h,
    last (render_sequence g) start_render = draw_rectangle_outline x y w h /\
    (vl <= x - w / 2 <-> 0 <= vl) /\
    (x + w / 2 <= vl + SCREEN_WIDTH <-> vl + SCREEN_WIDTH <= PLAYING_FIELD_WIDTH).
Proof.
  cbn zeta. eexists _, _, _, _. split; [reflexivity |].
  set (vl := inject_Z (view_left g)).
  unfold MAIN_SCREEN_HEIGHT, MINIMAP_HEIGHT, SCREEN_WIDTH, SCREEN_HEIGHT,
    PLAYING_FIELD_WIDTH, PLAYING_FIELD_HEIGHT.
  no_div. repeat split; intros; lra.
Qed.

(** ** The physics step, further *)

Lemma update_face (p : Player.t) :
  Player.face_right (Player.update p) = Player.face_right p.
Proof. reflexivity. Qed.

(** The player turns with the horizontal key that has an effect: it faces
    left after a step with the left key alone, right after a step with the
    right key alone, and as before otherwise; the vertical keys do not turn
    it. *)
Theorem facing_follows_keys (g : MyGame) :
  Player.face_right (player_sprite (physics_step g)) =
  if left_pressed g && negb (right_pressed g) then false
  else if right_pressed g && negb (left_pressed g) then true
       else Player.face_right (player_sprite g).
Proof.
  unfold physics_step. cbn [player_sprite set_player]. rewrite update_face.
  unfold apply_keys.
  destruct (up_pressed g), (down_pressed g), (left_pressed g), (right_pressed g);
    cbn [andb negb];
    unfold Player.accelerate_up, Player.accelerate_down,
      Player.accelerate_left, Player.accelerate_right;
    cbn [Player.with_sprite Player.set_face_right Player.sprite Player.face_right];
    repeat match goal with
           | |- context [if ?c then _ else _] => destruct c
           end; reflexivity.
Qed.

(** After a step the velocity is inside the speed limits by the drag at
    least, whatever the keys and the position. *)
Theorem step_is_bounded (g : MyGame) :
  speed_ok (Player.sprite (player_sprite g)) ->
  let s' := Player.sprite (player_sprite (physics_step g)) in
  Qabs (change_x s') <= MAX_HORIZONTAL_MOVEMENT_SPEED - MOVEMENT_DRAG /\
  Qabs (change_y s') <= MAX_VERTICAL_MOVEMENT_SPEED - MOVEMENT_DRAG.
Proof.
  intros Hs. cbn zeta.
  pose proof (apply_keys_ok g Hs) as [Kx Ky].
  unfold physics_step. cbn [player_sprite set_player].
  unfold Player.update. cbn [Player.with_sprite Player.sprite].
  destruct (update_sprite_velocity (Player.sprite (apply_keys g))) as [Ex Ey].
  split.
  - rewrite Ex. destruct (drag_shrinks _ _ Kx) as [Z | B]; [| exact B].
    rewrite Z. unfold MAX_HORIZONTAL_MOVEMENT_SPEED, MOVEMENT_DRAG. cbn. lra.
  - rewrite Ey. destruct (drag_shrinks _ _ Ky) as [Z | B]; [| exact B].
    rewrite Z. unfold MAX_VERTICAL_MOVEMENT_SPEED, MOVEMENT_DRAG. cbn. lra.
Qed.

Lemma step_is_bounded_witness :
  let g := set_pressed false true true false (drifting 10 5 start_game) in
  speed_ok (Player.sprite (player_sprite g)) /\
  Qabs (change_x (Player.sprite (player_sprite (physics_step g))))
  <= MAX_HORIZONTAL_MOVEMENT_SPEED - MOVEMENT_DRAG.
Proof.
  cbn zeta.
  assert (S : speed_ok (Player.sprite (player_sprite
                (set_pressed false true true false (drifting 10 5 start_game)))))
    by (split; vm_compute; discriminate).
  split; [exact S |].
  exact (proj1 (step_is_bounded
                  (set_pressed false true true false (drifting 10 5 start_game)) S)).
Defined.
